(** * Flight performance tracker: the [FlightAnalyzer] of [main.py]

    The analyzer loads a table of flight records, derives four columns and
    answers five group-by reports and one scalar summary.  The table is
    a pandas [DataFrame]; it is embedded row-wise, as a list of records
    whose fields are the columns.  The pandas, numpy and seaborn operations
    the source calls ([groupby], [agg], [sort_values], [head], [reindex],
    [mode], [idxmax], [histplot]) are embedded as list functions that follow
    the semantics of those calls with the arguments the source passes.

    Numbers: a numeric cell is an [option Q], [None] being the missing value
    (NaN).  Arithmetic is exact over the rationals; the rounding of the
    float64 cells of the source is outside this model.

    Figures: a plotting call is embedded as the data it is handed, saved
    under the file name of the report.  How matplotlib draws a figure is
    outside this model; in particular the drawing library refuses a bar or
    line chart of a table without rows, where the embedded call returns,
    and no theorem states that a method returns on such a table. *)

From Stdlib Require Import List String Ascii ZArith QArith Qround Bool Lia Lqa.
From Stdlib Require Import Permutation Sorted OrdersEx DecimalString.
Import ListNotations.

Local Open Scope string_scope.
Local Open Scope Z_scope.

(** ** Data model *)

Inductive Month :=
| January | February | March | April | May | June
| July | August | September | October | November | December.

(** A parsed [time_hour] cell ([pd.to_datetime], line 21). *)
Record Timestamp := {
  ts_year : Z;
  ts_month : Month;
  ts_day : Z;
  ts_hour : Z
}.

(** [strftime('%B')]: the full month name. *)
Definition strftime_B (t : Timestamp) : string :=
  match ts_month t with
  | January => "January" | February => "February" | March => "March"
  | April => "April" | May => "May" | June => "June"
  | July => "July" | August => "August" | September => "September"
  | October => "October" | November => "November" | December => "December"
  end.

(** One row of the delimited source, as [pd.read_csv] hands it over: the
    columns the analyzer uses.  Delays and distance may be missing.  The
    carrier name, the airports, the hour and the timestamp are taken as
    present, as in the record type of the specification; a row with an
    empty cell in one of them, which [groupby] would leave out of every
    group, is outside this model. *)
Module Csv.
Record Row := {
  name : string;
  origin : string;
  dest : string;
  hour : Z;
  dep_delay : option Q;
  arr_delay : option Q;
  distance : option Q;
  time_hour : Timestamp
}.
End Csv.

(** One row of [self.df] after [load_data]: the source columns and the four
    derived ones. *)
Record FlightRecord := {
  name : string;
  origin : string;
  dest : string;
  hour : Z;
  dep_delay : option Q;
  arr_delay : option Q;
  distance : option Q;
  time_hour : Timestamp;
  month_name : string;
  hour_formatted : string;
  is_delayed : bool;
  total_delay : option Q
}.

Definition DataFrame := list FlightRecord.

(** ** Element-wise column operations *)

(** [series > c]: a comparison with a missing value is false. *)
Definition series_gt (x : option Q) (c : Q) : bool :=
  match x with
  | Some d => negb (Qle_bool d c)
  | None => false
  end.

(** [series + series]: missing if either operand is. *)
Definition series_add (x y : option Q) : option Q :=
  match x, y with
  | Some a, Some b => Some (a + b)%Q
  | _, _ => None
  end.

(** The format [f"{x:02d}"]: decimal digits, zero-padded to width 2, the
    sign counting in the width. *)
Definition format_02d (x : Z) : string :=
  let s := NilZero.string_of_int (Z.to_int x) in
  if (String.length s <? 2)%nat then "0" ++ s else s.

(** ** [load_data] (lines 15-29) *)

Definition derive (r : Csv.Row) : FlightRecord := {|
  name := Csv.name r;
  origin := Csv.origin r;
  dest := Csv.dest r;
  hour := Csv.hour r;
  dep_delay := Csv.dep_delay r;
  arr_delay := Csv.arr_delay r;
  distance := Csv.distance r;
  time_hour := Csv.time_hour r;
  month_name := strftime_B (Csv.time_hour r);
  hour_formatted := format_02d (Csv.hour r) ++ ":00";
  is_delayed := series_gt (Csv.dep_delay r) 15;
  total_delay := series_add (Csv.dep_delay r) (Csv.arr_delay r)
|}.

Definition load_data (rows : list Csv.Row) : DataFrame := map derive rows.

(** ** Reductions *)

(** The present values of a column. *)
Fixpoint dropna (xs : list (option Q)) : list Q :=
  match xs with
  | [] => []
  | Some x :: t => x :: dropna t
  | None :: t => dropna t
  end.

Definition Qsum (xs : list Q) : Q := fold_right Qplus 0%Q xs.

(** [Series.mean()], [skipna=True]: the mean of the present values, missing
    when there is none. *)
Definition mean (xs : list (option Q)) : option Q :=
  match dropna xs with
  | [] => None
  | ys => Some (Qsum ys / inject_Z (Z.of_nat (List.length ys)))%Q
  end.

(** [Series.count()]: the number of present values. *)
Definition count (xs : list (option Q)) : nat := List.length (dropna xs).

(** A boolean column is reduced as the numbers 1 and 0. *)
Definition bool_to_float (b : bool) : option Q := Some (if b then 1 else 0)%Q.

Definition mean_bool (bs : list bool) : option Q := mean (map bool_to_float bs).

(** ** Group keys

    [groupby] orders the groups by key ([sort=True] is the default); string
    keys compare by code point, pairs of keys lexicographically. *)

Class Key (K : Type) := key_compare : K -> K -> comparison.

#[export] Instance string_Key : Key string := String_as_OT.compare.

#[export] Instance pair_Key {A B : Type} `{Key A} `{Key B} : Key (A * B) :=
  fun x y =>
    match key_compare (fst x) (fst y) with
    | Eq => key_compare (snd x) (snd y)
    | c => c
    end.

Definition key_eqb {K : Type} `{Key K} (a b : K) : bool :=
  match key_compare a b with Eq => true | _ => false end.

Definition key_lt {K : Type} `{Key K} (a b : K) : Prop := key_compare a b = Lt.

Section GroupBy.
Context {K : Type} `{Key K} {R : Type}.

(** The sorted list of the distinct keys. *)
Fixpoint insert_key (k : K) (ks : list K) : list K :=
  match ks with
  | [] => [k]
  | k' :: ks' =>
      match key_compare k k' with
      | Lt => k :: ks
      | Eq => ks
      | Gt => k' :: insert_key k ks'
      end
  end.

Definition sorted_keys (ks : list K) : list K := fold_right insert_key [] ks.

(** The rows of one group, in the order of the frame. *)
Definition get_group (key : R -> K) (df : list R) (k : K) : list R :=
  filter (fun r => key_eqb (key r) k) df.

(** [df.groupby(key)]: one group per distinct key, in ascending key order. *)
Definition groupby (key : R -> K) (df : list R) : list (K * list R) :=
  map (fun k => (k, get_group key df k)) (sorted_keys (map key df)).
End GroupBy.

(** ** [sort_values(by, ascending=False)]

    pandas sorts one column through [nargsort]: the rows with a missing key
    are set aside, the others are reversed, argsorted in ascending order,
    reversed again, and the rows with a missing key are appended
    ([na_position='last']).  The source leaves the sort kind at its
    default, numpy's quicksort, which does not fix the order of rows with
    equal keys.  The argsort is embedded as an insertion sort, one of the
    orders a sort may give; the theorems about the sorted tables state
    only what holds of every order of the ties. *)

Section SortValues.
Context {R : Type}.

Fixpoint insert_asc (x : R * Q) (l : list (R * Q)) : list (R * Q) :=
  match l with
  | [] => [x]
  | y :: l' =>
      if Qle_bool (snd x) (snd y) then x :: l else y :: insert_asc x l'
  end.

Definition argsort (l : list (R * Q)) : list (R * Q) :=
  fold_right insert_asc [] l.

Fixpoint non_nans (by_ : R -> option Q) (rows : list R) : list (R * Q) :=
  match rows with
  | [] => []
  | r :: t =>
      match by_ r with
      | Some q => (r, q) :: non_nans by_ t
      | None => non_nans by_ t
      end
  end.

Definition nans (by_ : R -> option Q) (rows : list R) : list R :=
  filter (fun r => match by_ r with None => true | Some _ => false end) rows.

Definition sort_values_desc (by_ : R -> option Q) (rows : list R) : list R :=
  map fst (rev (argsort (rev (non_nans by_ rows)))) ++ nans by_ rows.

(** [head(n)]: the first [n] rows; for a negative [n], all rows but the
    last [-n]. *)
Definition head (n : Z) (rows : list R) : list R :=
  if n <? 0 then firstn (List.length rows - Z.to_nat (- n)) rows
  else firstn (Z.to_nat n) rows.
End SortValues.

(** ** Errors

    The Python exceptions the analyzer can raise after loading. *)

Inductive PyError := IndexError | ValueError.

Inductive Result (A : Type) :=
| Ok (a : A)
| Raise (e : PyError).
Arguments Ok {A} a.
Arguments Raise {A} e.

(** [lst[i]] on a Python list. *)
Definition getitem {A : Type} (l : list A) (i : nat) : Result A :=
  match nth_error l i with
  | Some a => Ok a
  | None => Raise IndexError
  end.

(** ** [Series.mode()] and [Series.idxmax()] *)

(** The distinct values in order of first appearance. *)
Fixpoint unique (xs : list string) : list string :=
  match xs with
  | [] => []
  | x :: t => x :: filter (fun y => negb (String.eqb x y)) (unique t)
  end.

Definition occurrences (xs : list string) (v : string) : nat :=
  List.length (filter (String.eqb v) xs).

Definition value_counts (xs : list string) : list (string * nat) :=
  map (fun v => (v, occurrences xs v)) (unique xs).

Definition max_count (vc : list (string * nat)) : nat :=
  fold_right (fun p m => Nat.max (snd p) m) 0%nat vc.

(** The sort applied to the modes: ascending, by [key_compare]. *)
Fixpoint insert_sorted (x : string) (l : list string) : list string :=
  match l with
  | [] => [x]
  | y :: l' =>
      match key_compare x y with
      | Gt => y :: insert_sorted x l'
      | _ => x :: l
      end
  end.

Definition safe_sort (l : list string) : list string :=
  fold_right insert_sorted [] l.

(** [Series.mode()]: every value whose count is the highest, sorted. *)
Definition mode (xs : list string) : list string :=
  let vc := value_counts xs in
  safe_sort (map fst (filter (fun p => Nat.eqb (snd p) (max_count vc)) vc)).

(** [.iloc[0]] *)
Definition iloc0 {A : Type} (l : list A) : Result A := getitem l 0.

(** [Series.idxmax()]: the label of the first occurrence of the greatest
    present value; [ValueError] when there is none. *)
Fixpoint idxmax_from {K : Type} (best : K * Q) (l : list (K * option Q)) : K :=
  match l with
  | [] => fst best
  | (k, Some q) :: t =>
      if Qle_bool q (snd best) then idxmax_from best t else idxmax_from (k, q) t
  | (_, None) :: t => idxmax_from best t
  end.

Fixpoint idxmax {K : Type} (l : list (K * option Q)) : Result K :=
  match l with
  | [] => Raise ValueError
  | (k, Some q) :: t => Ok (idxmax_from (k, q) t)
  | (_, None) :: t => idxmax t
  end.

(** ** Histogram ([sns.histplot(..., bins=50)])

    seaborn hands the sample to numpy: [bins] equal-width bins between the
    least and the greatest observation; the range of an empty sample is
    (0, 1), a range of width zero is widened by one half on each side; the
    last bin is closed on the right. *)

Record Bar := {
  bar_left : Q;
  bar_right : Q;
  bar_count : nat
}.

Definition Qmin' (a b : Q) : Q := if Qle_bool a b then a else b.
Definition Qmax' (a b : Q) : Q := if Qle_bool a b then b else a.

Definition outer_edges (xs : list Q) : Q * Q :=
  match xs with
  | [] => (0, 1)%Q
  | x :: t =>
      let lo := fold_right Qmin' x t in
      let hi := fold_right Qmax' x t in
      if Qeq_bool lo hi then (lo - (1 # 2), hi + (1 # 2))%Q else (lo, hi)
  end.

Definition bin_edge (lo hi : Q) (bins i : nat) : Q :=
  (lo + (hi - lo) * inject_Z (Z.of_nat i) / inject_Z (Z.of_nat bins))%Q.

Definition bin_index (lo hi : Q) (bins : nat) (x : Q) : Z :=
  let i := Qfloor ((x - lo) / (hi - lo) * inject_Z (Z.of_nat bins)) in
  if i =? Z.of_nat bins then i - 1 else i.

Definition histogram (bins : nat) (xs : list Q) : list Bar :=
  let '(lo, hi) := outer_edges xs in
  map (fun i => {|
         bar_left := bin_edge lo hi bins i;
         bar_right := bin_edge lo hi bins (S i);
         bar_count :=
           List.length
             (filter (fun x => bin_index lo hi bins x =? Z.of_nat i) xs)
       |})
      (seq 0 bins).

(** ** Report tables and figures *)

(** A row of [carrier_stats]: the carrier and the means of [is_delayed] and
    [dep_delay] over its records. *)
Record CarrierStats := {
  cs_name : string;
  cs_is_delayed : option Q;
  cs_dep_delay : option Q
}.

(** A row of [route_delays]: the (origin, dest) pair and the [mean] and
    [count] of its [dep_delay] column. *)
Record RouteDelay := {
  rd_route : string * string;
  rd_mean : option Q;
  rd_count : nat
}.

(** A row of [monthly_stats]. *)
Record MonthlyStats := {
  ms_month : string;
  ms_dep_delay : option Q;
  ms_arr_delay : option Q
}.

(** A palette entry, by its position in the palette. *)
Definition Color := nat.

(** [sns.color_palette("husl", n)] *)
Definition color_palette (n : nat) : list Color := seq 0 n.

(** What a plotting call is handed: the bars of a histogram, or the palette
    entries, the index labels and the value columns of a bar or line
    chart. *)
Inductive Figure :=
| HistPlot (bars : list Bar)
| BarPlot (palette : list Color) (index : list string)
          (columns : list (list (option Q)))
| LinePlot (color : Color) (index : list string) (values : list (option Q)).

(** The image files of the working directory, by name. *)
Definition FileSystem := list (string * Figure).

Definition read_file (fs : FileSystem) (path : string) : option Figure :=
  option_map snd (find (fun p => String.eqb (fst p) path) fs).

Definition write_file (fs : FileSystem) (path : string) (fig : Figure)
  : FileSystem :=
  (path, fig) :: filter (fun p => negb (String.eqb (fst p) path)) fs.

(** ** The analyzer object and its methods

    A method runs on the analyzer object and the file system; it returns a
    value or raises, and leaves both in some state either way. *)

Record FlightAnalyzer := {
  df : DataFrame;
  colors : list Color
}.

Definition World := (FlightAnalyzer * FileSystem)%type.

Definition M (A : Type) := World -> Result A * World.

Definition ret {A : Type} (a : A) : M A := fun w => (Ok a, w).

Definition bindM {A B : Type} (m : M A) (f : A -> M B) : M B :=
  fun w =>
    match m w with
    | (Ok a, w') => f a w'
    | (Raise e, w') => (Raise e, w')
    end.

Declare Scope method_scope.
Delimit Scope method_scope with method.
Notation "x <- m ;; k" := (bindM m (fun x => k))
  (at level 61, m at next level, right associativity) : method_scope.
Notation "m ;; k" := (bindM m (fun _ => k))
  (at level 61, right associativity) : method_scope.

Definition lift {A : Type} (r : Result A) : M A := fun w => (r, w).

(** [self.df] *)
Definition self_df : M DataFrame := fun w => (Ok (df (fst w)), w).

(** [self.colors[i]] *)
Definition self_colors (i : nat) : M Color :=
  fun w => lift (getitem (colors (fst w)) i) w.

(** [plt.savefig(path)]: the file is overwritten. *)
Definition savefig (path : string) (fig : Figure) : M unit :=
  fun w => (Ok tt, (fst w, write_file (snd w) path fig)).

Local Open Scope method_scope.

(** [__init__] (lines 10-13): [load_data], then [setup_plot_style]. *)
Definition __init__ (rows : list Csv.Row) : FlightAnalyzer :=
  {| df := load_data rows; colors := color_palette 8 |}.

(** [plot_delay_distribution] (lines 36-48) *)
Definition plot_delay_distribution (carrier : option string) : M unit :=
  d <- self_df ;;
  let data :=
    match carrier with
    | None => d
    | Some c => filter (fun r => String.eqb (name r) c) d
    end in
  let positive := filter (fun r => series_gt (dep_delay r) 0) data in
  savefig "delay_distribution.png"
          (HistPlot (histogram 50 (dropna (map dep_delay positive)))).

(** [plot_carrier_performance] (lines 50-68) *)
Definition carrier_agg (g : string * list FlightRecord) : CarrierStats := {|
  cs_name := fst g;
  cs_is_delayed := mean_bool (map is_delayed (snd g));
  cs_dep_delay := mean (map dep_delay (snd g))
|}.

Definition carrier_stats (d : DataFrame) : list CarrierStats :=
  sort_values_desc cs_is_delayed (map carrier_agg (groupby name d)).

Definition plot_carrier_performance : M (list CarrierStats) :=
  d <- self_df ;;
  let stats := carrier_stats d in
  c <- self_colors 0 ;;
  savefig "carrier_performance.png"
          (BarPlot [c] (map cs_name stats) [map cs_is_delayed stats]) ;;
  ret stats.

(** [plot_hourly_delays] (lines 70-82) *)
Definition hourly_delays (d : DataFrame) : list (string * option Q) :=
  map (fun g => (fst g, mean (map dep_delay (snd g))))
      (groupby hour_formatted d).

Definition plot_hourly_delays : M unit :=
  d <- self_df ;;
  let hourly := hourly_delays d in
  c <- self_colors 2 ;;
  savefig "hourly_delays.png" (LinePlot c (map fst hourly) (map snd hourly)).

(** [plot_route_analysis] (lines 84-102) *)
Definition route_agg (g : (string * string) * list FlightRecord)
  : RouteDelay := {|
  rd_route := fst g;
  rd_mean := mean (map dep_delay (snd g));
  rd_count := count (map dep_delay (snd g))
|}.

Definition route_delays (d : DataFrame) (top_n : Z) : list RouteDelay :=
  head top_n
       (sort_values_desc rd_mean
          (map route_agg (groupby (fun r => (origin r, dest r)) d))).

Definition route_label (r : string * string) : string :=
  "(" ++ fst r ++ ", " ++ snd r ++ ")".

Definition plot_route_analysis (top_n : Z) : M (list RouteDelay) :=
  d <- self_df ;;
  let routes := route_delays d top_n in
  c <- self_colors 3 ;;
  savefig "route_analysis.png"
          (BarPlot [c] (map (fun r => route_label (rd_route r)) routes)
                   [map rd_mean routes]) ;;
  ret routes.

(** [plot_monthly_trends] (lines 104-128) *)
Definition month_order : list string :=
  ["January"; "February"; "March"; "April"; "May"; "June";
   "July"; "August"; "September"; "October"; "November"; "December"].

Definition monthly_agg (g : string * list FlightRecord) : MonthlyStats := {|
  ms_month := fst g;
  ms_dep_delay := mean (map dep_delay (snd g));
  ms_arr_delay := mean (map arr_delay (snd g))
|}.

(** [reindex(labels)]: one row per label, in the order of the labels; a
    label the table does not have gets a row of missing values. *)
Definition reindex (labels : list string) (table : list MonthlyStats)
  : list MonthlyStats :=
  map (fun l =>
         match find (fun row => String.eqb (ms_month row) l) table with
         | Some row => row
         | None => {| ms_month := l; ms_dep_delay := None; ms_arr_delay := None |}
         end)
      labels.

Definition monthly_stats (d : DataFrame) : list MonthlyStats :=
  reindex month_order (map monthly_agg (groupby month_name d)).

Definition plot_monthly_trends : M (list MonthlyStats) :=
  d <- self_df ;;
  let monthly := monthly_stats d in
  c4 <- self_colors 4 ;;
  c5 <- self_colors 5 ;;
  savefig "monthly_trends.png"
          (BarPlot [c4; c5] (map ms_month monthly)
                   [map ms_dep_delay monthly; map ms_arr_delay monthly]) ;;
  ret monthly.

(** [generate_summary_statistics] (lines 130-142): the entries are
    evaluated in the order of the dictionary display. *)
Record Summary := {
  total_flights : nat;
  average_departure_delay : option Q;
  average_arrival_delay : option Q;
  percentage_delayed_flights : option Q;
  most_common_origin : string;
  most_common_destination : string;
  carrier_with_most_delays : string;
  average_flight_distance : option Q
}.

Definition delay_rates (d : DataFrame) : list (string * option Q) :=
  map (fun g => (fst g, mean_bool (map is_delayed (snd g)))) (groupby name d).

Definition generate_summary_statistics : M Summary :=
  d <- self_df ;;
  let total := List.length d in
  let avg_dep := mean (map dep_delay d) in
  let avg_arr := mean (map arr_delay d) in
  let pct := option_map (fun m => m * 100)%Q (mean_bool (map is_delayed d)) in
  o <- lift (iloc0 (mode (map origin d))) ;;
  de <- lift (iloc0 (mode (map dest d))) ;;
  c <- lift (idxmax (delay_rates d)) ;;
  ret {| total_flights := total;
         average_departure_delay := avg_dep;
         average_arrival_delay := avg_arr;
         percentage_delayed_flights := pct;
         most_common_origin := o;
         most_common_destination := de;
         carrier_with_most_delays := c;
         average_flight_distance := mean (map distance d) |}.

(** ** Sequences of report calls *)

Inductive Call :=
| CallDelayDistribution (carrier : option string)
| CallCarrierPerformance
| CallHourlyDelays
| CallRouteAnalysis (top_n : Z)
| CallMonthlyTrends.

(** What a report method returns. *)
Inductive Output :=
| OutNone
| OutCarrier (t : list CarrierStats)
| OutRoute (t : list RouteDelay)
| OutMonthly (t : list MonthlyStats).

Definition run_call (c : Call) : M Output :=
  match c with
  | CallDelayDistribution carrier =>
      plot_delay_distribution carrier ;; ret OutNone
  | CallCarrierPerformance => t <- plot_carrier_performance ;; ret (OutCarrier t)
  | CallHourlyDelays => plot_hourly_delays ;; ret OutNone
  | CallRouteAnalysis n => t <- plot_route_analysis n ;; ret (OutRoute t)
  | CallMonthlyTrends => t <- plot_monthly_trends ;; ret (OutMonthly t)
  end.

Fixpoint run_calls (cs : list Call) : M (list Output) :=
  match cs with
  | [] => ret []
  | c :: cs' =>
      o <- run_call c ;;
      os <- run_calls cs' ;;
      ret (o :: os)
  end.

Definition output_file (c : Call) : string :=
  match c with
  | CallDelayDistribution _ => "delay_distribution.png"
  | CallCarrierPerformance => "carrier_performance.png"
  | CallHourlyDelays => "hourly_delays.png"
  | CallRouteAnalysis _ => "route_analysis.png"
  | CallMonthlyTrends => "monthly_trends.png"
  end.

(** The numeric results of one call: the value it returns and the figure it
    leaves in its image file. *)
Definition observe (c : Call) (w : World) : Result (Output * option Figure) :=
  match run_call c w with
  | (Ok o, w') => Ok (o, read_file (snd w') (output_file c))
  | (Raise e, _) => Raise e
  end.

(** ** The script (lines 145-166)

    The analyzer is built from the rows of the file, the summary is
    generated and printed, and the five reports are drawn in turn, the
    delay distribution for all carriers and the route analysis with the
    default [top_n].  The value of [main] is the summary that is printed;
    the launching of the image viewer at the end touches neither the
    analyzer nor the image files and is left out. *)

Local Open Scope method_scope.

Definition main_body : M Summary :=
  summary <- generate_summary_statistics ;;
  plot_delay_distribution None ;;
  plot_carrier_performance ;;
  plot_hourly_delays ;;
  plot_route_analysis 15 ;;
  plot_monthly_trends ;;
  ret summary.

Local Close Scope method_scope.

Definition main (rows : list Csv.Row) (fs : FileSystem)
  : Result Summary * World :=
  main_body (__init__ rows, fs).

(** The sample [plot_delay_distribution] hands to [histplot]: the positive
    departure delays of the carrier, or of all carriers. *)
Definition in_distribution (carrier : option string) (r : FlightRecord)
  : bool :=
  match carrier with
  | None => true
  | Some c => String.eqb (name r) c
  end && series_gt (dep_delay r) 0.

(** ** Orders and predicates of the statements *)

Class KeyLaws (K : Type) `{Key K} := {
  key_compare_eq : forall a b : K, key_compare a b = Eq <-> a = b;
  key_compare_antisym :
    forall a b : K, key_compare b a = CompOpp (key_compare a b);
  key_lt_trans : forall a b c : K, key_lt a b -> key_lt b c -> key_lt a c
}.

Definition key_le {K : Type} `{Key K} (a b : K) : Prop := key_compare a b <> Gt.

(** The order an ascending argsort produces on a list in which rows given
    later are [before] rows given earlier: ascending keys, and among equal
    keys the rows in the order given. *)
Definition lex_asc {R : Type} (before : R -> R -> Prop) (a b : R * Q) : Prop :=
  (snd a < snd b)%Q \/ ((snd a == snd b)%Q /\ before (fst b) (fst a)).

(** The order of the table the embedded sort gives: a row with a missing
    key comes after every row with a key; rows with keys have them in
    non-increasing order; rows with equal keys are left in the order
    [before] of the input by the insertion sort (by it, not by every
    sort). *)
Definition desc_order {R : Type} (before : R -> R -> Prop) (by_ : R -> option Q)
           (a b : R) : Prop :=
  match by_ a, by_ b with
  | Some qa, Some qb => (qb < qa)%Q \/ ((qa == qb)%Q /\ before a b)
  | Some _, None => True
  | None, Some _ => False
  | None, None => before a b
  end.

(** The first element of the sorted list is a least element. *)
Definition head_is_least (l : list string) : Prop :=
  match l with
  | [] => True
  | h :: t => Forall (key_le h) t
  end.

(** [v] is a most frequent value of [xs], and the least one in the order of
    the keys among the values that occur as often. *)
Definition least_most_frequent (xs : list string) (v : string) : Prop :=
  In v xs /\
  (forall w, (occurrences xs w <= occurrences xs v)%nat) /\
  (forall w, occurrences xs w = occurrences xs v -> w <> v -> key_lt v w).

Definition has_value (x : option Q) : bool :=
  match x with Some _ => true | None => false end.

(** The share of delayed records among all the records of [g]. *)
Definition delay_ratio (g : DataFrame) : Q :=
  (inject_Z (Z.of_nat (List.length (filter is_delayed g)))
   / inject_Z (Z.of_nat (List.length g)))%Q.

(** The grouped table, before it is sorted by rate. *)
Definition carrier_groups (d : DataFrame) : list CarrierStats :=
  map carrier_agg (groupby name d).

Definition name_before (a b : CarrierStats) : Prop :=
  key_lt (cs_name a) (cs_name b).

(** The grouped table, before it is sorted and truncated: one row per
    (origin, dest) pair of the record set. *)
Definition route_groups (d : DataFrame) : list RouteDelay :=
  map route_agg (groupby (fun r => (origin r, dest r)) d).

Definition same_route (k : string * string) (r : FlightRecord) : bool :=
  String.eqb (origin r) (fst k) && String.eqb (dest r) (snd k).

Definition route_before (a b : RouteDelay) : Prop :=
  key_lt (rd_route a) (rd_route b).

(** The mean of [a] is at least the mean of [b]: both are present and
    ordered so, or the mean of [b] is missing (a missing mean sorts last). *)
Definition mean_ge (a b : RouteDelay) : Prop :=
  match rd_mean a, rd_mean b with
  | Some qa, Some qb => (qb <= qa)%Q
  | _, None => True
  | None, Some _ => False
  end.

(** The labels of two hours compare as the hours do, decided over a range
    of hours. *)
Definition labels_ordered_upto (n : nat) : bool :=
  let hours := map Z.of_nat (seq 0 n) in
  forallb
    (fun a =>
       forallb
         (fun b =>
            match key_compare (format_02d a ++ ":00") (format_02d b ++ ":00"),
                  (a ?= b)
            with
            | Eq, Eq | Lt, Lt | Gt, Gt => true
            | _, _ => false
            end)
         hours)
    hours.

(** The five reports, as the script calls them. *)
Definition report_calls : list Call :=
  [CallDelayDistribution None; CallCarrierPerformance; CallHourlyDelays;
   CallRouteAnalysis 15; CallMonthlyTrends].

(** ** Sample record sets *)

Definition flight (carrier orig dst : string) (h : Z)
           (dep arr : option Q) (m : Month) : Csv.Row := {|
  Csv.name := carrier;
  Csv.origin := orig;
  Csv.dest := dst;
  Csv.hour := h;
  Csv.dep_delay := dep;
  Csv.arr_delay := arr;
  Csv.distance := Some 1000%Q;
  Csv.time_hour := {| ts_year := 2013; ts_month := m; ts_day := 1; ts_hour := h |}
|}.

(** Two carriers, both with every flight delayed; "B" comes first. *)
Definition tied_rows : list Csv.Row :=
  [flight "B" "JFK" "LAX" 5 (Some 20%Q) (Some 3%Q) January;
   flight "A" "EWR" "LAX" 6 (Some 30%Q) None March].

(** The scenario of three records: "A" 20, "A" 5, "B" 30. *)
Definition scenario_rows : list Csv.Row :=
  [flight "A" "JFK" "LAX" 5 (Some 20%Q) (Some 3%Q) January;
   flight "A" "JFK" "SFO" 6 (Some 5%Q) (Some 0%Q) January;
   flight "B" "EWR" "LAX" 7 (Some 30%Q) (Some 12%Q) March].

(** Carrier "A" has an early departure and a missing one only. *)
Definition early_rows : list Csv.Row :=
  [flight "B" "JFK" "LAX" 5 (Some 20%Q) (Some 3%Q) January;
   flight "A" "EWR" "LAX" 6 (Some (-3)%Q) None March;
   flight "A" "EWR" "SFO" 6 None None March].

(** One record, its departure delay missing. *)
Definition missing_rows : list Csv.Row :=
  [flight "A" "JFK" "LAX" 5 None None January].

(** * Properties *)

Local Close Scope method_scope.

(** ** Derived columns *)

Lemma series_gt_spec (x : option Q) (c : Q) :
  series_gt x c = true <-> exists d, x = Some d /\ (c < d)%Q.
Proof.
  destruct x as [d|]; simpl.
  - rewrite negb_true_iff. split.
    + intros Hle. exists d. split; [reflexivity|].
      destruct (Qlt_le_dec c d) as [Hlt|Hge]; [exact Hlt|].
      apply Qle_bool_iff in Hge. congruence.
    + intros (d' & Heq & Hlt). injection Heq as <-.
      destruct (Qle_bool d c) eqn:E; [|reflexivity].
      apply Qle_bool_iff in E. exfalso. apply (Qlt_not_le _ _ Hlt E).
  - split; [discriminate|]. intros (d & Heq & _). discriminate.
Qed.

Lemma load_data_In (rows : list Csv.Row) (r : FlightRecord) :
  In r (load_data rows) <-> exists c, In c rows /\ r = derive c.
Proof.
  unfold load_data. rewrite in_map_iff. split; intros (c & H1 & H2).
  - exists c. split; [exact H2 | symmetry; exact H1].
  - exists c. split; [symmetry; exact H2 | exact H1].
Qed.

(** C6: in every loaded record set, every record has [is_delayed] true
    exactly when its [dep_delay] is present and strictly greater than 15. *)
Theorem is_delayed_iff_dep_delay_gt_15 (rows : list Csv.Row) :
  Forall (fun r => is_delayed r = true <->
                   exists d, dep_delay r = Some d /\ (15 < d)%Q)
         (load_data rows).
Proof.
  apply Forall_forall. intros r Hr.
  apply load_data_In in Hr. destruct Hr as (c & _ & ->).
  simpl. apply series_gt_spec.
Qed.

Example format_02d_5 : format_02d 5 = "05".
Proof. reflexivity. Qed.

Example format_02d_17 : format_02d 17 = "17".
Proof. reflexivity. Qed.

(** The boundary: a departure delay of exactly 15 minutes is not delayed,
    one of 16 is. *)
Example is_delayed_boundary :
  series_gt (Some 15%Q) 15 = false /\ series_gt (Some 16%Q) 15 = true.
Proof. split; reflexivity. Qed.

(** C7: in every loaded record set, [total_delay] is the sum of [dep_delay]
    and [arr_delay] when both are present, and missing when either is. *)
Theorem total_delay_sum_or_missing (rows : list Csv.Row) :
  Forall (fun r =>
            (forall a b, dep_delay r = Some a -> arr_delay r = Some b ->
                         total_delay r = Some (a + b)%Q) /\
            (dep_delay r = None \/ arr_delay r = None ->
             total_delay r = None))
         (load_data rows).
Proof.
  apply Forall_forall. intros r Hr.
  apply load_data_In in Hr. destruct Hr as (c & _ & ->). simpl.
  split.
  - intros a b -> ->. reflexivity.
  - intros [-> | ->]; [reflexivity|].
    destruct (Csv.dep_delay c); reflexivity.
Qed.

(** ** The summary on an empty record set *)

(** C10: on an empty record set [generate_summary_statistics] raises and
    returns no summary; the most-common-origin lookup raises [IndexError],
    which is the exception that leaves the method, and the carrier lookup
    has no value either. *)
Theorem summary_of_empty_raises (fs : FileSystem) :
  generate_summary_statistics (__init__ [], fs)
  = (Raise IndexError, (__init__ [], fs)) /\
  iloc0 (mode (map origin (load_data []))) = Raise IndexError /\
  idxmax (delay_rates (load_data [])) = Raise ValueError.
Proof. repeat split. Qed.

(** ** The delay distribution of a carrier without positive delays *)

Lemma read_write_file (fs : FileSystem) (path : string) (fig : Figure) :
  read_file (write_file fs path fig) path = Some fig.
Proof.
  unfold read_file, write_file. simpl. rewrite String.eqb_refl. reflexivity.
Qed.

Lemma histogram_length (bins : nat) (xs : list Q) :
  List.length (histogram bins xs) = bins.
Proof.
  unfold histogram. destruct (outer_edges xs) as [lo hi].
  rewrite length_map, length_seq. reflexivity.
Qed.

Example histogram_of_five :
  map bar_count (histogram 4 [1; 2; 3; 5; 9]%Q) = [2; 1; 1; 1]%nat /\
  map (fun b => Qred (bar_left b)) (histogram 4 [1; 2; 3; 5; 9]%Q)
  = [1; 3; 5; 7]%Q.
Proof. vm_compute. split; reflexivity. Qed.

Lemma histogram_nil_counts (bins : nat) :
  Forall (fun b => bar_count b = 0%nat) (histogram bins []).
Proof.
  unfold histogram. simpl. apply Forall_forall. intros b Hb.
  apply in_map_iff in Hb. destruct Hb as (i & <- & _). reflexivity.
Qed.

Lemma filter_nil_iff {A : Type} (f : A -> bool) (l : list A) :
  filter f l = [] <-> forall x, In x l -> f x = false.
Proof.
  induction l as [|a l IH]; simpl.
  - split; [intros _ x []|reflexivity].
  - destruct (f a) eqn:E.
    + split; [discriminate|]. intros H. specialize (H a (or_introl eq_refl)).
      congruence.
    + rewrite IH. split.
      * intros H x [<-|Hx]; [exact E|apply H, Hx].
      * intros H x Hx. apply H. right. exact Hx.
Qed.

(** C3: when no record of the carrier has a strictly positive departure
    delay (in particular when the carrier has no record at all),
    [plot_delay_distribution] returns normally, leaves the analyzer as it
    was, and the histogram it saves has 50 buckets, each with count zero. *)
Theorem delay_distribution_without_positive_delays
  (rows : list Csv.Row) (fs : FileSystem) (carrier : string) :
  (forall r, In r (load_data rows) -> name r = carrier ->
             forall d, dep_delay r = Some d -> (d <= 0)%Q) ->
  exists bars fs',
    plot_delay_distribution (Some carrier) (__init__ rows, fs)
      = (Ok tt, (__init__ rows, fs')) /\
    read_file fs' "delay_distribution.png" = Some (HistPlot bars) /\
    List.length bars = 50%nat /\
    Forall (fun b => bar_count b = 0%nat) bars.
Proof.
  intros Hno.
  assert (Hnil : filter (fun r => series_gt (dep_delay r) 0)
                   (filter (fun r => String.eqb (name r) carrier)
                           (load_data rows)) = []).
  { apply filter_nil_iff. intros r Hr. apply filter_In in Hr.
    destruct Hr as [Hin Hname]. apply String.eqb_eq in Hname.
    destruct (series_gt (dep_delay r) 0) eqn:E; [|reflexivity].
    apply series_gt_spec in E. destruct E as (d & Hd & Hpos).
    exfalso. apply (Qlt_not_le _ _ Hpos). exact (Hno r Hin Hname d Hd). }
  exists (histogram 50 []), (write_file fs "delay_distribution.png"
                               (HistPlot (histogram 50 []))).
  split; [|split; [|split]].
  - unfold plot_delay_distribution, bindM, self_df, savefig. simpl fst.
    simpl df. rewrite Hnil. reflexivity.
  - apply read_write_file.
  - apply histogram_length.
  - apply histogram_nil_counts.
Qed.

(** The theorem at [early_rows] and carrier "A", whose only departure delays
    are an early one and a missing one. *)
Lemma delay_distribution_early_carrier :
  exists bars fs',
    plot_delay_distribution (Some "A") (__init__ early_rows, [])
      = (Ok tt, (__init__ early_rows, fs')) /\
    read_file fs' "delay_distribution.png" = Some (HistPlot bars) /\
    List.length bars = 50%nat /\
    Forall (fun b => bar_count b = 0%nat) bars.
Proof.
  apply (delay_distribution_without_positive_delays early_rows [] "A").
  intros r [<-|[<-|[<-|[]]]]; simpl; intros Hname d Hd;
    try discriminate Hname; try discriminate Hd.
  injection Hd as <-. discriminate.
Defined.

(** A carrier absent from the record set. *)
Example delay_distribution_absent_carrier :
  match plot_delay_distribution (Some "ZZ") (__init__ scenario_rows, []) with
  | (Ok _, (_, fs')) =>
      match read_file fs' "delay_distribution.png" with
      | Some (HistPlot bars) =>
          List.length bars = 50%nat /\
          forallb (fun b => Nat.eqb (bar_count b) 0) bars = true
      | _ => False
      end
  | (Raise _, _) => False
  end.
Proof. split; reflexivity. Qed.

(** ** Group keys are a strict total order *)

#[export] Instance string_KeyLaws : KeyLaws string.
Proof.
  assert (Hirr : forall a, ~ String_as_OT.lt a a).
  { intros a. apply (StrictOrder_Irreflexive (R := String_as_OT.lt)). }
  assert (Htr : forall a b c, String_as_OT.lt a b -> String_as_OT.lt b c ->
                              String_as_OT.lt a c).
  { intros a b c. apply (StrictOrder_Transitive (R := String_as_OT.lt)). }
  split; unfold key_lt, key_compare, string_Key.
  - intros a b. split.
    + intros E. destruct (String_as_OT.compare_spec a b); congruence.
    + intros E. subst b.
      destruct (String_as_OT.compare_spec a a) as [_|Hl|Hl];
        [reflexivity | destruct (Hirr _ Hl) ..].
  - intros a b.
    destruct (String_as_OT.compare_spec a b) as [E1|Hab|Hba];
      destruct (String_as_OT.compare_spec b a) as [E2|Hab'|Hba'];
      try reflexivity; unfold String_as_OT.eq in *; subst; exfalso;
      solve [ eapply Hirr; eassumption
            | eapply Hirr, Htr; eassumption ].
  - intros a b c. apply Htr.
Qed.

Lemma key_compare_refl {K : Type} `{KeyLaws K} (a : K) : key_compare a a = Eq.
Proof. apply key_compare_eq. reflexivity. Qed.

Lemma key_compare_gt_lt {K : Type} `{KeyLaws K} (a b : K) :
  key_compare a b = Gt <-> key_lt b a.
Proof.
  unfold key_lt. rewrite (key_compare_antisym a b).
  destruct (key_compare a b); simpl; split; congruence.
Qed.

Lemma key_lt_irrefl {K : Type} `{KeyLaws K} (a : K) : ~ key_lt a a.
Proof. unfold key_lt. rewrite key_compare_refl. discriminate. Qed.

Lemma key_eqb_eq {K : Type} `{KeyLaws K} (a b : K) :
  key_eqb a b = true <-> a = b.
Proof.
  unfold key_eqb. rewrite <- key_compare_eq.
  destruct (key_compare a b); split; congruence.
Qed.

#[export] Instance pair_KeyLaws {A B : Type} `{KeyLaws A} `{KeyLaws B} :
  KeyLaws (A * B).
Proof.
  split; unfold key_lt, key_compare, pair_Key.
  - intros [a1 b1] [a2 b2]. simpl. split.
    + destruct (key_compare a1 a2) eqn:Ea; try discriminate.
      intros Eb. apply key_compare_eq in Ea, Eb. congruence.
    + intros [= -> ->]. rewrite !key_compare_refl. reflexivity.
  - intros [a1 b1] [a2 b2]. simpl.
    rewrite (key_compare_antisym a1 a2), (key_compare_antisym b1 b2).
    destruct (key_compare a1 a2); reflexivity.
  - intros [a1 b1] [a2 b2] [a3 b3]. simpl.
    destruct (key_compare a1 a2) eqn:E12; try discriminate;
      destruct (key_compare a2 a3) eqn:E23; try discriminate; intros Hb12 Hb23.
    + apply key_compare_eq in E12, E23. subst.
      rewrite key_compare_refl. exact (key_lt_trans _ _ _ Hb12 Hb23).
    + apply key_compare_eq in E12. subst. rewrite E23. reflexivity.
    + apply key_compare_eq in E23. subst. rewrite E12. reflexivity.
    + rewrite (key_lt_trans (K := A) a1 a2 a3 E12 E23). reflexivity.
Qed.

(** ** [groupby]: one group per distinct key, in ascending key order *)

Section GroupByFacts.
Context {K : Type} `{KeyLaws K} {R : Type}.

Lemma insert_key_In (k x : K) (ks : list K) :
  In x (insert_key k ks) <-> x = k \/ In x ks.
Proof.
  induction ks as [|k' ks IH]; simpl.
  - intuition.
  - destruct (key_compare k k') eqn:E; simpl.
    + apply key_compare_eq in E. subst. intuition.
    + intuition.
    + rewrite IH. intuition.
Qed.

Lemma insert_key_sorted (k : K) (ks : list K) :
  StronglySorted key_lt ks -> StronglySorted key_lt (insert_key k ks).
Proof.
  induction 1 as [|k' ks Hs IH Hall]; simpl.
  - constructor; constructor.
  - destruct (key_compare k k') eqn:E.
    + constructor; assumption.
    + constructor; [constructor; assumption|].
      constructor; [exact E|].
      eapply Forall_impl; [|exact Hall].
      intros a Ha. exact (key_lt_trans _ _ _ E Ha).
    + constructor; [exact IH|].
      apply Forall_forall. intros x Hx. apply insert_key_In in Hx.
      destruct Hx as [->|Hx].
      * apply key_compare_gt_lt. exact E.
      * rewrite Forall_forall in Hall. apply Hall, Hx.
Qed.

Lemma sorted_keys_In (x : K) (ks : list K) :
  In x (sorted_keys ks) <-> In x ks.
Proof.
  induction ks as [|k ks IH]; simpl; [reflexivity|].
  rewrite insert_key_In, IH. intuition.
Qed.

Lemma sorted_keys_sorted (ks : list K) :
  StronglySorted key_lt (sorted_keys ks).
Proof.
  induction ks as [|k ks IH]; simpl; [constructor|].
  apply insert_key_sorted, IH.
Qed.

Lemma StronglySorted_key_lt_NoDup (ks : list K) :
  StronglySorted key_lt ks -> NoDup ks.
Proof.
  induction 1 as [|k ks Hs IH Hall]; constructor; [|exact IH].
  intros Hin. rewrite Forall_forall in Hall.
  exact (key_lt_irrefl _ (Hall _ Hin)).
Qed.

Lemma groupby_keys (key : R -> K) (d : list R) :
  map fst (groupby key d) = sorted_keys (map key d).
Proof.
  unfold groupby. rewrite map_map. simpl. apply map_id.
Qed.

Lemma groupby_In (key : R -> K) (d : list R) (g : K * list R) :
  In g (groupby key d) <->
  (exists r, In r d /\ key r = fst g) /\ snd g = get_group key d (fst g).
Proof.
  unfold groupby. rewrite in_map_iff. split.
  - intros (k & <- & Hk). simpl. split; [|reflexivity].
    apply sorted_keys_In, in_map_iff in Hk.
    destruct Hk as (r & Hr & Hin). exists r. split; assumption.
  - intros [(r & Hin & Hr) Hg]. exists (fst g). split.
    + destruct g; simpl in *; congruence.
    + apply sorted_keys_In, in_map_iff. exists r. split; assumption.
Qed.

Lemma get_group_In (key : R -> K) (d : list R) (k : K) (r : R) :
  In r (get_group key d k) <-> In r d /\ key r = k.
Proof.
  unfold get_group. rewrite filter_In, key_eqb_eq. reflexivity.
Qed.
End GroupByFacts.

Lemma key_eqb_string (a b : string) : key_eqb a b = String.eqb a b.
Proof.
  destruct (String.eqb_spec a b) as [->|Hne].
  - apply key_eqb_eq. reflexivity.
  - destruct (key_eqb a b) eqn:E; [|reflexivity].
    apply key_eqb_eq in E. contradiction.
Qed.

Lemma get_group_string {R : Type} (key : R -> string) (d : list R) (k : string) :
  get_group key d k = filter (fun r => String.eqb (key r) k) d.
Proof.
  unfold get_group. apply filter_ext. intros r. apply key_eqb_string.
Qed.

(** ** Running a method *)

(** Unfolds the plumbing of a method call on an analyzer built by
    [__init__], leaving the table computations folded. *)
Ltac run_method :=
  cbv [bindM self_df self_colors lift getitem savefig ret
       __init__ color_palette seq nth_error fst snd df colors].

(** ** Monthly trends *)

Lemma find_monthly_agg_In (G : string -> list FlightRecord) (l : string)
      (ks : list string) :
  In l ks ->
  find (fun row => String.eqb (ms_month row) l)
       (map monthly_agg (map (fun k => (k, G k)) ks))
  = Some (monthly_agg (l, G l)).
Proof.
  induction ks as [|k ks IH]; simpl; [intros []|].
  destruct (String.eqb_spec k l) as [->|Hne]; [reflexivity|].
  intros [Hk|Hin]; [contradiction|]. apply IH, Hin.
Qed.

Lemma find_monthly_agg_not_In (G : string -> list FlightRecord) (l : string)
      (ks : list string) :
  ~ In l ks ->
  find (fun row => String.eqb (ms_month row) l)
       (map monthly_agg (map (fun k => (k, G k)) ks))
  = None.
Proof.
  induction ks as [|k ks IH]; simpl; [reflexivity|].
  intros Hn. destruct (String.eqb_spec k l) as [->|Hne].
  - exfalso. apply Hn. left. reflexivity.
  - apply IH. intros Hin. apply Hn. right. exact Hin.
Qed.

(** The row [reindex] produces for a label: the label, and the means over
    the records of that month (missing when the month has no record). *)
Lemma reindex_row (d : DataFrame) (l : string) :
  let row :=
    match find (fun row => String.eqb (ms_month row) l)
               (map monthly_agg (groupby month_name d)) with
    | Some row => row
    | None => {| ms_month := l; ms_dep_delay := None; ms_arr_delay := None |}
    end in
  let g := filter (fun r => String.eqb (month_name r) l) d in
  ms_month row = l /\
  ms_dep_delay row = mean (map dep_delay g) /\
  ms_arr_delay row = mean (map arr_delay g).
Proof.
  intros row g. subst row g. rewrite <- get_group_string. unfold groupby.
  destruct (in_dec string_dec l (sorted_keys (map month_name d))) as [Hin|Hn].
  - rewrite (find_monthly_agg_In (get_group month_name d) l _ Hin).
    repeat split.
  - rewrite (find_monthly_agg_not_In (get_group month_name d) l _ Hn).
    assert (Hnil : get_group month_name d l = []).
    { apply filter_nil_iff. intros r Hr.
      destruct (key_eqb (month_name r) l) eqn:E; [|reflexivity].
      apply key_eqb_eq in E. exfalso. apply Hn.
      apply sorted_keys_In, in_map_iff. exists r. split; assumption. }
    rewrite Hnil. repeat split.
Qed.

(** C5: [plot_monthly_trends] returns exactly 12 rows, labelled January to
    December in this order; the row of a month carries the means of
    [dep_delay] and [arr_delay] over the records of that month, and both
    entries are missing when the month has no record. *)
Theorem monthly_trends_twelve_rows (rows : list Csv.Row) (fs : FileSystem) :
  let d := load_data rows in
  let t := monthly_stats d in
  (exists fs', plot_monthly_trends (__init__ rows, fs)
               = (Ok t, (__init__ rows, fs'))) /\
  List.length t = 12%nat /\
  map ms_month t = month_order /\
  Forall (fun row =>
            let g := filter (fun r => String.eqb (month_name r) (ms_month row)) d in
            ms_dep_delay row = mean (map dep_delay g) /\
            ms_arr_delay row = mean (map arr_delay g) /\
            (g = [] -> ms_dep_delay row = None /\ ms_arr_delay row = None))
         t.
Proof.
  intros d t.
  assert (Hrows : Forall (fun row =>
            let g := filter (fun r => String.eqb (month_name r) (ms_month row)) d in
            ms_dep_delay row = mean (map dep_delay g) /\
            ms_arr_delay row = mean (map arr_delay g)) t).
  { apply Forall_forall. intros row Hrow. subst t.
    unfold monthly_stats, reindex in Hrow. apply in_map_iff in Hrow.
    destruct Hrow as (l & <- & _).
    destruct (reindex_row d l) as (Hl & Hdep & Harr). cbv zeta.
    rewrite Hl. split; assumption. }
  split; [|split; [|split]].
  - eexists. unfold plot_monthly_trends. run_method. reflexivity.
  - subst t. unfold monthly_stats, reindex. rewrite length_map. reflexivity.
  - subst t. unfold monthly_stats, reindex. rewrite map_map.
    rewrite <- (map_id month_order) at 2. apply map_ext. intros l.
    apply (reindex_row d l).
  - eapply Forall_impl; [|exact Hrows]. cbv zeta.
    intros row [Hdep Harr].
    split; [exact Hdep|]. split; [exact Harr|].
    intros Hnil. rewrite Hnil in Hdep, Harr. split; assumption.
Qed.

(** ** Strongly sorted lists *)

Lemma StronglySorted_app {A : Type} (R : A -> A -> Prop) (l1 l2 : list A) :
  StronglySorted R (l1 ++ l2) <->
  StronglySorted R l1 /\ StronglySorted R l2 /\
  (forall a b, In a l1 -> In b l2 -> R a b).
Proof.
  induction l1 as [|x l1 IH]; simpl.
  - split.
    + intros Hs. repeat split; [constructor | exact Hs | intros a b []].
    + intros (_ & Hs & _). exact Hs.
  - split.
    + intros Hs. apply StronglySorted_inv in Hs. destruct Hs as [Hs Hall].
      apply IH in Hs. destruct Hs as (H1 & H2 & H12).
      rewrite Forall_forall in Hall. repeat split.
      * constructor; [exact H1|]. apply Forall_forall. intros y Hy.
        apply Hall, in_or_app. left. exact Hy.
      * exact H2.
      * intros a b [<-|Ha] Hb; [apply Hall, in_or_app; right; exact Hb|].
        apply H12; assumption.
    + intros (H1 & H2 & H12). apply StronglySorted_inv in H1.
      destruct H1 as [H1 Hall]. rewrite Forall_forall in Hall.
      constructor.
      * apply IH. repeat split; [exact H1 | exact H2 |].
        intros a b Ha Hb. apply H12; [right; exact Ha | exact Hb].
      * apply Forall_forall. intros y Hy. apply in_app_or in Hy.
        destruct Hy as [Hy|Hy]; [apply Hall, Hy|].
        apply H12; [left; reflexivity | exact Hy].
Qed.

Lemma StronglySorted_rev {A : Type} (R : A -> A -> Prop) (l : list A) :
  StronglySorted R l -> StronglySorted (fun a b => R b a) (rev l).
Proof.
  induction 1 as [|x l Hs IH Hall]; simpl; [constructor|].
  apply StronglySorted_app. repeat split.
  - exact IH.
  - constructor; constructor.
  - intros a b Ha [<-|[]]. rewrite Forall_forall in Hall.
    apply Hall, in_rev, Ha.
Qed.

Lemma StronglySorted_map_weaken {A B : Type} (R : A -> A -> Prop)
      (R' : B -> B -> Prop) (P : A -> Prop) (f : A -> B) (l : list A) :
  (forall a b, P a -> P b -> R a b -> R' (f a) (f b)) ->
  Forall P l -> StronglySorted R l -> StronglySorted R' (map f l).
Proof.
  intros HR HP Hs. induction Hs as [|x l Hs IH Hall]; simpl; [constructor|].
  apply Forall_cons_iff in HP. destruct HP as [Px Pl].
  constructor; [apply IH, Pl|].
  rewrite Forall_forall in *. intros y Hy. apply in_map_iff in Hy.
  destruct Hy as (a & <- & Ha). apply HR; auto.
Qed.

Lemma StronglySorted_nth_error {A : Type} (R : A -> A -> Prop) (l : list A) :
  StronglySorted R l ->
  forall i j a b, nth_error l i = Some a -> nth_error l j = Some b ->
                  (i < j)%nat -> R a b.
Proof.
  induction 1 as [|x l Hs IH Hall]; intros i j a b Hi Hj Hlt.
  - destruct i; discriminate.
  - destruct j as [|j]; [lia|]. simpl in Hj. destruct i as [|i]; simpl in Hi.
    + injection Hi as <-. rewrite Forall_forall in Hall.
      apply Hall. eapply nth_error_In, Hj.
    + apply (IH i j); [assumption | assumption | lia].
Qed.

(** ** [sort_values]: a permutation, in descending order *)

Section SortValuesFacts.
Context {R : Type}.

Lemma insert_asc_perm (x : R * Q) (l : list (R * Q)) :
  Permutation (insert_asc x l) (x :: l).
Proof.
  induction l as [|y l IH]; simpl; [reflexivity|].
  destruct (Qle_bool (snd x) (snd y)); [reflexivity|].
  rewrite IH. apply perm_swap.
Qed.

Lemma argsort_perm (l : list (R * Q)) : Permutation (argsort l) l.
Proof.
  induction l as [|x l IH]; simpl; [reflexivity|].
  rewrite insert_asc_perm, IH. reflexivity.
Qed.

Lemma lex_asc_le (before : R -> R -> Prop) (a b : R * Q) :
  lex_asc before a b -> (snd a <= snd b)%Q.
Proof. intros [Hlt|[Heq _]]; [apply Qlt_le_weak, Hlt | rewrite Heq; apply Qle_refl]. Qed.

Lemma insert_asc_lex (before : R -> R -> Prop) (x : R * Q) (s : list (R * Q)) :
  StronglySorted (lex_asc before) s ->
  Forall (fun y => before (fst y) (fst x)) s ->
  StronglySorted (lex_asc before) (insert_asc x s).
Proof.
  induction 1 as [|y s Hs IH Hall]; intros Hbef; simpl.
  - constructor; constructor.
  - apply Forall_cons_iff in Hbef. destruct Hbef as [Hy Hbef].
    destruct (Qle_bool (snd x) (snd y)) eqn:E.
    + apply Qle_bool_iff in E.
      assert (Hle : forall z, In z (y :: s) -> (snd x <= snd z)%Q).
      { intros z [<-|Hz]; [exact E|].
        rewrite Forall_forall in Hall.
        eapply Qle_trans; [exact E | apply (lex_asc_le before), Hall, Hz]. }
      constructor; [constructor; assumption|].
      apply Forall_forall. intros z Hz.
      assert (Hb : before (fst z) (fst x)).
      { destruct Hz as [<-|Hz]; [exact Hy|].
        rewrite Forall_forall in Hbef. apply Hbef, Hz. }
      specialize (Hle z Hz). apply Qle_lteq in Hle.
      destruct Hle as [Hlt|Heq]; [left; exact Hlt | right; split; assumption].
    + assert (Hlt : (snd y < snd x)%Q).
      { apply Qnot_le_lt. intros Hle. apply Qle_bool_iff in Hle. congruence. }
      constructor; [apply IH, Hbef|].
      apply Forall_forall. intros z Hz.
      apply (Permutation_in _ (insert_asc_perm x s)) in Hz.
      destruct Hz as [<-|Hz]; [left; exact Hlt|].
      rewrite Forall_forall in Hall. apply Hall, Hz.
Qed.

Lemma argsort_lex (before : R -> R -> Prop) (l : list (R * Q)) :
  StronglySorted (fun a b => before (fst b) (fst a)) l ->
  StronglySorted (lex_asc before) (argsort l).
Proof.
  induction 1 as [|x l Hs IH Hall]; simpl; [constructor|].
  apply insert_asc_lex; [exact IH|].
  apply Forall_forall. intros y Hy.
  apply (Permutation_in _ (argsort_perm l)) in Hy.
  rewrite Forall_forall in Hall. apply Hall, Hy.
Qed.

Lemma non_nans_In (by_ : R -> option Q) (rows : list R) (p : R * Q) :
  In p (non_nans by_ rows) <-> In (fst p) rows /\ by_ (fst p) = Some (snd p).
Proof.
  induction rows as [|r rows IH]; simpl; [tauto|].
  destruct (by_ r) as [q|] eqn:E; simpl; rewrite IH; split.
  - intros [<-|[H1 H2]]; simpl; [split; [left; reflexivity | exact E]|].
    split; [right; exact H1 | exact H2].
  - intros [[->|H1] H2].
    + left. destruct p as [r' q']. simpl in *. congruence.
    + right. split; assumption.
  - intros [H1 H2]. split; [right; exact H1 | exact H2].
  - intros [[->|H1] H2]; [congruence|]. split; assumption.
Qed.

Lemma non_nans_sorted (before : R -> R -> Prop) (by_ : R -> option Q)
      (rows : list R) :
  StronglySorted before rows ->
  StronglySorted (fun a b => before (fst a) (fst b)) (non_nans by_ rows).
Proof.
  induction 1 as [|r rows Hs IH Hall]; simpl; [constructor|].
  destruct (by_ r) as [q|]; [|exact IH].
  constructor; [exact IH|].
  apply Forall_forall. intros p Hp. apply non_nans_In in Hp.
  rewrite Forall_forall in Hall. simpl. apply Hall, Hp.
Qed.

Lemma non_nans_nans_perm (by_ : R -> option Q) (rows : list R) :
  Permutation (map fst (non_nans by_ rows) ++ nans by_ rows) rows.
Proof.
  unfold nans. induction rows as [|r rows IH]; simpl; [reflexivity|].
  destruct (by_ r); simpl.
  - apply perm_skip, IH.
  - symmetry. apply Permutation_cons_app. symmetry. exact IH.
Qed.

Lemma sort_values_desc_perm (by_ : R -> option Q) (rows : list R) :
  Permutation (sort_values_desc by_ rows) rows.
Proof.
  unfold sort_values_desc.
  eapply Permutation_trans; [|apply non_nans_nans_perm].
  apply Permutation_app_tail, Permutation_map.
  eapply Permutation_trans; [symmetry; apply Permutation_rev|].
  eapply Permutation_trans; [apply argsort_perm|].
  symmetry. apply Permutation_rev.
Qed.

Lemma sort_values_desc_sorted (before : R -> R -> Prop) (by_ : R -> option Q)
      (rows : list R) :
  StronglySorted before rows ->
  StronglySorted (desc_order before by_) (sort_values_desc by_ rows).
Proof.
  intros Hs. unfold sort_values_desc. apply StronglySorted_app.
  set (sorted := rev (argsort (rev (non_nans by_ rows)))).
  assert (Hkeys : Forall (fun p => by_ (fst p) = Some (snd p)) sorted).
  { apply Forall_forall. intros p Hp. subst sorted.
    apply in_rev in Hp. apply (Permutation_in _ (argsort_perm _)) in Hp.
    apply in_rev in Hp. apply non_nans_In in Hp. apply Hp. }
  repeat split.
  - apply (StronglySorted_map_weaken
             (fun a b => lex_asc before b a) _
             (fun p => by_ (fst p) = Some (snd p))); [|exact Hkeys|].
    + intros a b Ha Hb Hab. unfold desc_order. rewrite Ha, Hb.
      destruct Hab as [Hlt|[Heq Hbef]]; [left; exact Hlt|].
      right. split; [symmetry; exact Heq | exact Hbef].
    + subst sorted. apply StronglySorted_rev, argsort_lex.
      apply (StronglySorted_rev (fun a b => before (fst a) (fst b))).
      apply non_nans_sorted, Hs.
  - clear sorted Hkeys. unfold nans.
    induction Hs as [|r rows Hs IH Hall]; simpl; [constructor|].
    destruct (by_ r) eqn:E; [exact IH|].
    constructor; [exact IH|]. apply Forall_forall. intros y Hy.
    apply filter_In in Hy. destruct Hy as [Hy Hn].
    unfold desc_order. rewrite E. destruct (by_ y); [discriminate|].
    rewrite Forall_forall in Hall. apply Hall, Hy.
  - intros a b Ha Hb. apply in_map_iff in Ha. destruct Ha as (p & <- & Hp).
    rewrite Forall_forall in Hkeys. unfold desc_order.
    rewrite (Hkeys p Hp). apply filter_In in Hb.
    destruct (by_ b); [destruct Hb; discriminate | exact I].
Qed.
End SortValuesFacts.

(** ** Means *)

Lemma dropna_bool_to_float (bs : list bool) :
  dropna (map bool_to_float bs)
  = map (fun b : bool => if b then 1%Q else 0%Q) bs.
Proof.
  induction bs as [|b bs IH]; simpl; [reflexivity|]. rewrite IH. reflexivity.
Qed.

Lemma mean_bool_Some (bs : list bool) :
  bs <> [] -> exists q, mean_bool bs = Some q.
Proof.
  intros Hne. unfold mean_bool, mean. rewrite dropna_bool_to_float.
  destruct bs as [|b bs]; [contradiction|]. simpl. eexists. reflexivity.
Qed.

(** ** Carrier performance *)

Lemma carrier_groups_names (d : DataFrame) :
  map cs_name (carrier_groups d) = sorted_keys (map name d).
Proof.
  unfold carrier_groups. rewrite map_map. simpl. apply groupby_keys.
Qed.

Lemma carrier_groups_sorted (d : DataFrame) :
  StronglySorted name_before (carrier_groups d).
Proof.
  unfold carrier_groups, groupby. rewrite map_map.
  apply (StronglySorted_map_weaken key_lt name_before (fun _ => True)).
  - intros a b _ _ Hab. exact Hab.
  - apply Forall_forall. intros; exact I.
  - apply sorted_keys_sorted.
Qed.

Lemma carrier_groups_In (d : DataFrame) (row : CarrierStats) :
  In row (carrier_groups d) ->
  let g := filter (fun r => String.eqb (name r) (cs_name row)) d in
  g <> [] /\
  cs_is_delayed row = mean_bool (map is_delayed g) /\
  cs_dep_delay row = mean (map dep_delay g).
Proof.
  unfold carrier_groups. intros Hrow. apply in_map_iff in Hrow.
  destruct Hrow as (g & <- & Hg). apply groupby_In in Hg.
  destruct Hg as [(r & Hr & Hk) Hsnd]. simpl.
  rewrite <- get_group_string, <- Hsnd. repeat split.
  intros Hnil. assert (Hin : In r (snd g)).
  { rewrite Hsnd. apply get_group_In. split; assumption. }
  rewrite Hnil in Hin. exact Hin.
Qed.

Lemma carrier_groups_rate (d : DataFrame) (row : CarrierStats) :
  In row (carrier_groups d) -> exists q, cs_is_delayed row = Some q.
Proof.
  intros Hrow. destruct (carrier_groups_In d row Hrow) as (Hne & -> & _).
  apply mean_bool_Some. intros Hnil. apply Hne.
  apply map_eq_nil in Hnil. exact Hnil.
Qed.

(** C1, as the code has it: the table [carrier_stats] of
    [plot_carrier_performance] has one row per carrier of the record set,
    carrying the means of [is_delayed] and of [dep_delay] over the records
    of the carrier, and the rows are in non-increasing order of delay rate.
    Nothing is stated of the order of carriers with equal delay rates: it
    is left to the sort, and it is not the order in which the carriers
    first appear.  The method returns this table; this is stated for a
    non-empty record set, the bar chart of an empty table being left to the
    drawing library. *)
Theorem carrier_performance_report (rows : list Csv.Row) (fs : FileSystem) :
  let d := load_data rows in
  let t := carrier_stats d in
  (rows <> [] ->
   exists fs', plot_carrier_performance (__init__ rows, fs)
               = (Ok t, (__init__ rows, fs'))) /\
  NoDup (map cs_name t) /\
  (forall c, In c (map cs_name t) <-> exists r, In r d /\ name r = c) /\
  Forall (fun row =>
            let g := filter (fun r => String.eqb (name r) (cs_name row)) d in
            cs_is_delayed row = mean_bool (map is_delayed g) /\
            cs_dep_delay row = mean (map dep_delay g))
         t /\
  (forall i j a b,
      nth_error t i = Some a -> nth_error t j = Some b -> (i < j)%nat ->
      exists qa qb,
        cs_is_delayed a = Some qa /\ cs_is_delayed b = Some qb /\
        (qb <= qa)%Q).
Proof.
  intros d t.
  assert (Hperm : Permutation t (carrier_groups d)).
  { apply sort_values_desc_perm. }
  assert (Hnames : Permutation (map cs_name t) (sorted_keys (map name d))).
  { rewrite <- carrier_groups_names. apply Permutation_map, Hperm. }
  split; [|split; [|split; [|split]]].
  - intros _. eexists. unfold plot_carrier_performance. run_method.
    reflexivity.
  - apply (Permutation_NoDup (Permutation_sym Hnames)).
    apply StronglySorted_key_lt_NoDup, sorted_keys_sorted.
  - intros c. split.
    + intros Hc. apply (Permutation_in _ Hnames) in Hc.
      apply (proj1 (sorted_keys_In _ _)) in Hc.
      apply in_map_iff in Hc. destruct Hc as (r & Hr & Hin).
      exists r. split; assumption.
    + intros (r & Hin & Hr).
      apply (Permutation_in _ (Permutation_sym Hnames)), sorted_keys_In.
      apply in_map_iff. exists r. split; assumption.
  - apply Forall_forall. intros row Hrow.
    apply (Permutation_in _ Hperm) in Hrow.
    destruct (carrier_groups_In d row Hrow) as (_ & H1 & H2).
    split; assumption.
  - intros i j a b Hi Hj Hlt.
    assert (Hord : desc_order name_before cs_is_delayed a b).
    { apply (StronglySorted_nth_error _ t) with (i := i) (j := j); try assumption.
      apply sort_values_desc_sorted, carrier_groups_sorted. }
    destruct (carrier_groups_rate d a) as [qa Ha].
    { apply (Permutation_in _ Hperm). eapply nth_error_In, Hi. }
    destruct (carrier_groups_rate d b) as [qb Hb].
    { apply (Permutation_in _ Hperm). eapply nth_error_In, Hj. }
    exists qa, qb. unfold desc_order in Hord. rewrite Ha, Hb in Hord.
    split; [exact Ha|]. split; [exact Hb|].
    destruct Hord as [Hlt'|[Heq _]];
      [apply Qlt_le_weak, Hlt' | rewrite Heq; apply Qle_refl].
Qed.

(** The claim C1 as written fails on the order of ties: in [tied_rows]
    carrier "B" appears before carrier "A" and both have delay rate 1, yet
    the report lists "A" before "B"; the record set in the opposite order
    gives the same report, so that the order of first appearance cannot be
    the order of the ties in both. *)
Lemma carrier_ties_not_in_order_of_appearance :
  map Csv.name tied_rows = ["B"; "A"] /\
  map (fun r => (cs_name r, cs_is_delayed r))
      (carrier_stats (load_data tied_rows))
  = [("A", Some 1%Q); ("B", Some 1%Q)] /\
  carrier_stats (load_data (rev tied_rows))
  = carrier_stats (load_data tied_rows).
Proof. repeat split. Qed.

(** The report depends on the record set through the grouped table only. *)
Lemma carrier_stats_of_groups (d1 d2 : DataFrame) :
  carrier_groups d1 = carrier_groups d2 -> carrier_stats d1 = carrier_stats d2.
Proof. unfold carrier_stats, carrier_groups. intros ->. reflexivity. Qed.

(** ** [mode]: the smallest of the most frequent values *)

Lemma unique_In (x : string) (xs : list string) :
  In x (unique xs) <-> In x xs.
Proof.
  induction xs as [|a xs IH]; simpl; [reflexivity|].
  rewrite filter_In, IH, negb_true_iff, String.eqb_neq.
  destruct (string_dec a x) as [->|Hne]; intuition.
Qed.

Lemma occurrences_pos (xs : list string) (v : string) :
  (0 < occurrences xs v)%nat <-> In v xs.
Proof.
  unfold occurrences. induction xs as [|a xs IH]; simpl; [lia|].
  destruct (String.eqb_spec v a) as [->|Hne]; simpl.
  - split; [intros _; left; reflexivity | lia].
  - rewrite IH. split; [intros Hin; right; exact Hin|].
    intros [Ha|Hin]; [congruence | exact Hin].
Qed.

Lemma max_count_ge (vc : list (string * nat)) (p : string * nat) :
  In p vc -> (snd p <= max_count vc)%nat.
Proof.
  induction vc as [|a vc IH]; simpl; [intros []|].
  intros [<-|Hin]; [lia|]. specialize (IH Hin). lia.
Qed.

Lemma max_count_attained (vc : list (string * nat)) :
  vc <> [] -> exists p, In p vc /\ snd p = max_count vc.
Proof.
  induction vc as [|a vc IH]; [contradiction|]. intros _. simpl.
  destruct vc as [|b vc].
  - exists a. split; [left; reflexivity|]. simpl. lia.
  - destruct IH as (p & Hp & Hmax); [discriminate|].
    destruct (Nat.max_spec (snd a) (max_count (b :: vc))) as [[_ E]|[_ E]];
      rewrite E.
    + exists p. split; [right; exact Hp | exact Hmax].
    + exists a. split; [left; reflexivity | reflexivity].
Qed.

Lemma key_le_trans {K : Type} `{KeyLaws K} (a b c : K) :
  key_le a b -> key_le b c -> key_le a c.
Proof.
  unfold key_le. intros Hab Hbc.
  destruct (key_compare a b) eqn:Eab; [| |congruence].
  - apply key_compare_eq in Eab. subst. exact Hbc.
  - destruct (key_compare b c) eqn:Ebc; [| |congruence].
    + apply key_compare_eq in Ebc. subst. rewrite Eab. discriminate.
    + rewrite (key_lt_trans a b c Eab Ebc). discriminate.
Qed.

Lemma insert_sorted_In (x y : string) (l : list string) :
  In y (insert_sorted x l) <-> y = x \/ In y l.
Proof.
  induction l as [|a l IH]; simpl; [intuition|].
  destruct (key_compare x a); simpl; rewrite ?IH; intuition.
Qed.

Lemma safe_sort_In (y : string) (l : list string) :
  In y (safe_sort l) <-> In y l.
Proof.
  induction l as [|a l IH]; simpl; [reflexivity|].
  rewrite insert_sorted_In, IH. intuition.
Qed.

Lemma insert_sorted_head (x : string) (l : list string) :
  head_is_least l -> head_is_least (insert_sorted x l).
Proof.
  destruct l as [|y l]; simpl; [constructor|]. intros Hall.
  destruct (key_compare x y) eqn:E; simpl.
  - constructor; [unfold key_le; congruence|].
    eapply Forall_impl; [|exact Hall]. intros z Hz.
    apply (key_le_trans x y z); [unfold key_le; congruence | exact Hz].
  - constructor; [unfold key_le; congruence|].
    eapply Forall_impl; [|exact Hall]. intros z Hz.
    apply (key_le_trans x y z); [unfold key_le; congruence | exact Hz].
  - apply Forall_forall. intros z Hz. apply insert_sorted_In in Hz.
    destruct Hz as [->|Hz].
    + apply key_compare_gt_lt in E. unfold key_le. rewrite E. discriminate.
    + rewrite Forall_forall in Hall. apply Hall, Hz.
Qed.

Lemma safe_sort_head (l : list string) : head_is_least (safe_sort l).
Proof.
  induction l as [|a l IH]; simpl; [exact I|]. apply insert_sorted_head, IH.
Qed.

Lemma value_counts_In (xs : list string) (p : string * nat) :
  In p (value_counts xs) <-> In (fst p) xs /\ snd p = occurrences xs (fst p).
Proof.
  unfold value_counts. rewrite in_map_iff. split.
  - intros (w & <- & Hw). simpl. split; [|reflexivity].
    apply (proj1 (unique_In w xs)), Hw.
  - intros [Hin Hc]. exists (fst p). split.
    + destruct p; simpl in *; congruence.
    + apply (proj2 (unique_In (fst p) xs)), Hin.
Qed.

Lemma mode_In (xs : list string) (v : string) :
  In v (mode xs) <->
  In v xs /\ occurrences xs v = max_count (value_counts xs).
Proof.
  unfold mode. rewrite safe_sort_In, in_map_iff. split.
  - intros (p & <- & Hp). apply filter_In in Hp. destruct Hp as [Hp Hc].
    apply Nat.eqb_eq in Hc. apply value_counts_In in Hp.
    destruct Hp as [Hin Hocc]. split; congruence.
  - intros [Hin Hc]. exists (v, occurrences xs v). split; [reflexivity|].
    apply filter_In. split.
    + apply value_counts_In. split; [exact Hin | reflexivity].
    + simpl. apply Nat.eqb_eq. exact Hc.
Qed.

Lemma max_count_bounds (xs : list string) (w : string) :
  (occurrences xs w <= max_count (value_counts xs))%nat.
Proof.
  destruct (Nat.eq_dec (occurrences xs w) 0) as [E|E]; [lia|].
  assert (Hin : In w xs) by (apply occurrences_pos; lia).
  apply (max_count_ge (value_counts xs) (w, occurrences xs w)).
  apply value_counts_In. split; [exact Hin | reflexivity].
Qed.

Lemma mode_iloc0 (xs : list string) :
  xs <> [] ->
  exists v, iloc0 (mode xs) = Ok v /\ least_most_frequent xs v.
Proof.
  intros Hne.
  assert (Hex : exists v, In v (mode xs)).
  { destruct (max_count_attained (value_counts xs)) as (p & Hp & Hmax).
    - destruct xs; [contradiction | discriminate].
    - apply value_counts_In in Hp. destruct Hp as [Hin Hocc].
      exists (fst p). apply mode_In. split; congruence. }
  pose proof (safe_sort_head
    (map fst (filter (fun p => Nat.eqb (snd p) (max_count (value_counts xs)))
                     (value_counts xs)))) as Hhead.
  fold (mode xs) in Hhead.
  destruct (mode xs) as [|v t] eqn:Emode; [destruct Hex as [? []]|].
  exists v. split; [reflexivity|].
  assert (Hv : In v (mode xs)) by (rewrite Emode; left; reflexivity).
  apply mode_In in Hv. destruct Hv as [Hin Hc].
  split; [exact Hin|]. split.
  - intros w. rewrite Hc. apply max_count_bounds.
  - intros w Hw Hneq.
    assert (Hwm : In w (mode xs)).
    { apply mode_In. split; [|congruence].
      apply occurrences_pos. rewrite Hw. apply occurrences_pos, Hin. }
    rewrite Emode in Hwm. destruct Hwm as [->|Hwt]; [contradiction|].
    simpl in Hhead. rewrite Forall_forall in Hhead.
    specialize (Hhead w Hwt). unfold key_le in Hhead. unfold key_lt.
    destruct (key_compare v w) eqn:E; [|reflexivity|contradiction].
    apply key_compare_eq in E. congruence.
Qed.

(** ** The scalar summary of a non-empty record set *)

Lemma idxmax_Ok {K : Type} (l : list (K * option Q)) :
  (exists k q, In (k, Some q) l) -> exists k, idxmax l = Ok k.
Proof.
  induction l as [|[k [q|]] l IH]; intros (k' & q' & Hin).
  - destruct Hin.
  - simpl. eexists. reflexivity.
  - simpl. apply IH. destruct Hin as [Heq|Hin]; [discriminate|].
    exists k', q'. exact Hin.
Qed.

Lemma delay_rates_present (d : DataFrame) :
  d <> [] -> exists k q, In (k, Some q) (delay_rates d).
Proof.
  destruct d as [|r d]; [contradiction|]. intros _.
  set (d' := r :: d).
  assert (Hg : In (name r, get_group name d' (name r)) (groupby name d')).
  { apply groupby_In. simpl. split; [|reflexivity].
    exists r. split; [left; reflexivity | reflexivity]. }
  destruct (mean_bool_Some (map is_delayed (get_group name d' (name r))))
    as [q Hq].
  { intros Hnil. apply map_eq_nil in Hnil.
    assert (Hin : In r (get_group name d' (name r))).
    { apply get_group_In. split; [left; reflexivity | reflexivity]. }
    rewrite Hnil in Hin. exact Hin. }
  exists (name r), q. unfold delay_rates. apply in_map_iff.
  exists (name r, get_group name d' (name r)). cbn [fst snd]. rewrite Hq.
  split; [reflexivity | exact Hg].
Qed.

Lemma load_data_nonempty (rows : list Csv.Row) :
  rows <> [] -> load_data rows <> [].
Proof. destruct rows; [contradiction | discriminate]. Qed.

(** The summary of a non-empty record set is produced, with these entries. *)
Lemma summary_of_nonempty (rows : list Csv.Row) (fs : FileSystem) :
  rows <> [] ->
  let d := load_data rows in
  exists o de c,
    iloc0 (mode (map origin d)) = Ok o /\
    iloc0 (mode (map dest d)) = Ok de /\
    idxmax (delay_rates d) = Ok c /\
    generate_summary_statistics (__init__ rows, fs)
    = (Ok {| total_flights := List.length d;
             average_departure_delay := mean (map dep_delay d);
             average_arrival_delay := mean (map arr_delay d);
             percentage_delayed_flights :=
               option_map (fun m => m * 100)%Q (mean_bool (map is_delayed d));
             most_common_origin := o;
             most_common_destination := de;
             carrier_with_most_delays := c;
             average_flight_distance := mean (map distance d) |},
       (__init__ rows, fs)).
Proof.
  intros Hne d.
  assert (Hd : d <> []) by (apply load_data_nonempty, Hne).
  destruct (mode_iloc0 (map origin d)) as (o & Ho & _).
  { intros Hnil. apply map_eq_nil in Hnil. contradiction. }
  destruct (mode_iloc0 (map dest d)) as (de & Hde & _).
  { intros Hnil. apply map_eq_nil in Hnil. contradiction. }
  destruct (idxmax_Ok (delay_rates d) (delay_rates_present d Hd)) as [c Hc].
  exists o, de, c. repeat (split; [assumption|]).
  unfold generate_summary_statistics. run_method.
  fold d. rewrite Ho, Hde, Hc. reflexivity.
Qed.

(** C2, as the code has it: for a non-empty record set the summary is
    produced, its most common origin is a most frequent value of the
    [origin] column and its most common destination one of the [dest]
    column; among several values tied for the highest frequency it is the
    least one in the order of the strings, not the first one met. *)
Theorem most_common_origin_and_destination
  (rows : list Csv.Row) (fs : FileSystem) :
  rows <> [] ->
  exists s,
    generate_summary_statistics (__init__ rows, fs)
    = (Ok s, (__init__ rows, fs)) /\
    least_most_frequent (map origin (load_data rows)) (most_common_origin s) /\
    least_most_frequent (map dest (load_data rows)) (most_common_destination s).
Proof.
  intros Hne.
  destruct (summary_of_nonempty rows fs Hne) as (o & de & c & Ho & Hde & _ & Hs).
  eexists. split; [exact Hs|]. simpl.
  assert (Hd : load_data rows <> []) by (apply load_data_nonempty, Hne).
  destruct (mode_iloc0 (map origin (load_data rows))) as (o' & Ho' & Hlo).
  { intros Hnil. apply map_eq_nil in Hnil. contradiction. }
  destruct (mode_iloc0 (map dest (load_data rows))) as (de' & Hde' & Hlde).
  { intros Hnil. apply map_eq_nil in Hnil. contradiction. }
  split; [replace o with o' by congruence | replace de with de' by congruence];
    assumption.
Qed.

(** The theorem at [tied_rows]. *)
Lemma most_common_of_tied_rows :
  exists s,
    generate_summary_statistics (__init__ tied_rows, [])
    = (Ok s, (__init__ tied_rows, [])) /\
    least_most_frequent (map origin (load_data tied_rows))
                        (most_common_origin s) /\
    least_most_frequent (map dest (load_data tied_rows))
                        (most_common_destination s).
Proof.
  apply (most_common_origin_and_destination tied_rows []).
  discriminate.
Defined.

(** The claim C2 as written fails on ties: in [tied_rows] the origins "JFK"
    and "EWR" occur once each and "JFK" is met first, yet the summary
    reports "EWR". *)
Lemma most_common_origin_not_first_met :
  map Csv.origin tied_rows = ["JFK"; "EWR"] /\
  occurrences (map origin (load_data tied_rows)) "JFK" = 1%nat /\
  occurrences (map origin (load_data tied_rows)) "EWR" = 1%nat /\
  match generate_summary_statistics (__init__ tied_rows, []) with
  | (Ok s, _) => most_common_origin s = "EWR"
  | (Raise _, _) => False
  end.
Proof. repeat split. Qed.

(** The scenario of three records: 3 flights, two thirds of them delayed,
    and "B" the carrier with the highest delay rate. *)
Example summary_of_scenario :
  match generate_summary_statistics (__init__ scenario_rows, []) with
  | (Ok s, _) =>
      total_flights s = 3%nat /\
      percentage_delayed_flights s = Some (200 # 3)%Q /\
      carrier_with_most_delays s = "B"
  | (Raise _, _) => False
  end.
Proof. repeat split. Qed.

(** ** Records with a missing departure delay *)

Lemma Qsum_indicator (g : DataFrame) :
  (Qsum (map (fun b : bool => if b then 1 else 0) (map is_delayed g))
   == inject_Z (Z.of_nat (List.length (filter is_delayed g))))%Q.
Proof.
  induction g as [|r g IH]; simpl; [reflexivity|].
  destruct (is_delayed r); simpl List.length.
  - rewrite IH, Nat2Z.inj_succ. unfold Z.succ. rewrite inject_Z_plus. ring.
  - rewrite IH. ring.
Qed.

Lemma mean_bool_ratio (g : DataFrame) :
  g <> [] ->
  exists q, mean_bool (map is_delayed g) = Some q /\ (q == delay_ratio g)%Q.
Proof.
  intros Hne. unfold mean_bool, mean. rewrite dropna_bool_to_float.
  destruct (map (fun b : bool => if b then 1%Q else 0%Q) (map is_delayed g))
    as [|x l] eqn:E.
  - apply map_eq_nil, map_eq_nil in E. contradiction.
  - eexists. split; [reflexivity|]. rewrite <- E.
    unfold delay_ratio. rewrite Qsum_indicator, !length_map. reflexivity.
Qed.



(** Carrier "A" of [early_rows] has two records, one of them with a missing
    departure delay and none delayed: its rate is 0 out of 2, and its mean
    departure delay is that of the one present value. *)
Example missing_dep_delay_in_early_rows :
  carrier_stats (load_data early_rows)
  = [{| cs_name := "B"; cs_is_delayed := Some 1%Q; cs_dep_delay := Some 20%Q |};
     {| cs_name := "A"; cs_is_delayed := Some (0 # 2)%Q;
        cs_dep_delay := Some (-3)%Q |}].
Proof. reflexivity. Qed.

(** ** Route analysis *)

Lemma get_group_route (d : DataFrame) (k : string * string) :
  get_group (fun r => (origin r, dest r)) d k = filter (same_route k) d.
Proof.
  unfold get_group. apply filter_ext. intros r. unfold same_route.
  apply eq_true_iff_eq.
  rewrite key_eqb_eq, andb_true_iff, !String.eqb_eq.
  destruct k as [o de]. simpl. split; [intros [= -> ->] | intros [-> ->]];
    auto.
Qed.

Lemma count_present {A : Type} (f : A -> option Q) (l : list A) :
  count (map f l) = List.length (filter (fun r => has_value (f r)) l).
Proof.
  unfold count. induction l as [|a l IH]; simpl; [reflexivity|].
  destruct (f a); simpl; congruence.
Qed.

Lemma route_groups_routes (d : DataFrame) :
  map rd_route (route_groups d)
  = sorted_keys (map (fun r => (origin r, dest r)) d).
Proof.
  unfold route_groups. rewrite map_map. simpl. apply groupby_keys.
Qed.

Lemma route_groups_sorted (d : DataFrame) :
  StronglySorted route_before (route_groups d).
Proof.
  unfold route_groups, groupby. rewrite map_map.
  apply (StronglySorted_map_weaken key_lt route_before (fun _ => True)).
  - intros a b _ _ Hab. exact Hab.
  - apply Forall_forall. intros; exact I.
  - apply sorted_keys_sorted.
Qed.

Lemma route_groups_In (d : DataFrame) (row : RouteDelay) :
  In row (route_groups d) ->
  let g := filter (same_route (rd_route row)) d in
  g <> [] /\
  rd_mean row = mean (map dep_delay g) /\
  rd_count row = count (map dep_delay g).
Proof.
  unfold route_groups. intros Hrow. apply in_map_iff in Hrow.
  destruct Hrow as (g & <- & Hg). apply groupby_In in Hg.
  destruct Hg as [(r & Hr & Hk) Hsnd]. simpl.
  rewrite <- get_group_route, <- Hsnd. repeat split.
  intros Hnil. assert (Hin : In r (snd g)).
  { rewrite Hsnd. apply get_group_In. split; assumption. }
  rewrite Hnil in Hin. exact Hin.
Qed.

Lemma desc_order_mean_ge (a b : RouteDelay) :
  desc_order route_before rd_mean a b -> mean_ge a b.
Proof.
  unfold desc_order, mean_ge.
  destruct (rd_mean a) as [qa|], (rd_mean b) as [qb|]; try tauto.
  intros [Hlt|[Heq _]]; [apply Qlt_le_weak, Hlt | rewrite Heq; apply Qle_refl].
Qed.

Lemma head_nonneg {A : Type} (n : Z) (l : list A) :
  0 <= n -> head n l = firstn (Z.to_nat n) l.
Proof.
  intros Hn. unfold head. destruct (n <? 0) eqn:E; [|reflexivity].
  apply Z.ltb_lt in E. lia.
Qed.

(** C4, as the code has it: for a non-negative [top_n], the table
    [route_delays] of [plot_route_analysis] has at most [top_n] rows, each
    for one (origin, dest) pair of the record set, carrying the mean of the
    present [dep_delay] values of the pair and the number of its records
    whose [dep_delay] is present; the rows are in non-increasing order of
    mean with missing means last, and the mean of every row of the table is
    at least that of every pair that is left out.  The method returns this
    table; this is stated for a table with at least one row, the bar chart
    of an empty table being left to the drawing library. *)
Theorem route_analysis_report
  (rows : list Csv.Row) (fs : FileSystem) (top_n : Z) :
  0 <= top_n ->
  let d := load_data rows in
  let t := route_delays d top_n in
  (rows <> [] -> 0 < top_n ->
   exists fs', plot_route_analysis top_n (__init__ rows, fs)
               = (Ok t, (__init__ rows, fs'))) /\
  Z.of_nat (List.length t) <= top_n /\
  NoDup (map rd_route t) /\
  Forall (fun row =>
            let g := filter (same_route (rd_route row)) d in
            g <> [] /\
            rd_mean row = mean (map dep_delay g) /\
            rd_count row
            = List.length (filter (fun r => has_value (dep_delay r)) g))
         t /\
  (forall i j a b,
      nth_error t i = Some a -> nth_error t j = Some b -> (i < j)%nat ->
      mean_ge a b) /\
  (forall a b, In a t -> In b (route_groups d) -> ~ In b t -> mean_ge a b).
Proof.
  intros Hn d t.
  set (s := sort_values_desc rd_mean (route_groups d)).
  assert (Ht : t = firstn (Z.to_nat top_n) s).
  { subst t s. unfold route_delays. apply head_nonneg, Hn. }
  assert (Hperm : Permutation s (route_groups d)).
  { apply sort_values_desc_perm. }
  assert (Hsorted : StronglySorted (desc_order route_before rd_mean) s).
  { apply sort_values_desc_sorted, route_groups_sorted. }
  assert (Hsplit : s = (t ++ skipn (Z.to_nat top_n) s)%list).
  { rewrite Ht. symmetry. apply firstn_skipn. }
  rewrite Hsplit in Hsorted. apply StronglySorted_app in Hsorted.
  destruct Hsorted as (Hst & _ & Hcross).
  assert (Hsub : forall row, In row t -> In row (route_groups d)).
  { intros row Hrow. apply (Permutation_in _ Hperm).
    rewrite Hsplit. apply in_or_app. left. exact Hrow. }
  split; [|split; [|split; [|split; [|split]]]].
  - intros _ _. eexists. unfold plot_route_analysis. run_method.
    reflexivity.
  - rewrite Ht. pose proof (firstn_le_length (Z.to_nat top_n) s). lia.
  - assert (Hnd : NoDup (map rd_route s)).
    { apply (Permutation_NoDup
               (Permutation_map rd_route (Permutation_sym Hperm))).
      rewrite route_groups_routes.
      apply StronglySorted_key_lt_NoDup, sorted_keys_sorted. }
    rewrite Hsplit, map_app in Hnd. apply NoDup_app_remove_r in Hnd.
    exact Hnd.
  - apply Forall_forall. intros row Hrow.
    destruct (route_groups_In d row (Hsub row Hrow)) as (Hne & Hmean & Hcnt).
    cbv zeta. rewrite <- count_present. repeat split; assumption.
  - intros i j a b Hi Hj Hlt. apply desc_order_mean_ge.
    apply (StronglySorted_nth_error _ t Hst i j); assumption.
  - intros a b Ha Hb Hnb. apply desc_order_mean_ge, Hcross; [exact Ha|].
    apply (Permutation_in _ (Permutation_sym Hperm)) in Hb.
    rewrite Hsplit in Hb. apply in_app_or in Hb.
    destruct Hb as [Hb|Hb]; [contradiction | exact Hb].
Qed.

(** The theorem at [early_rows] and the default [top_n]. *)
Lemma route_analysis_default_top_n :
  let d := load_data early_rows in
  let t := route_delays d 15 in
  (early_rows <> [] -> 0 < 15 ->
   exists fs', plot_route_analysis 15 (__init__ early_rows, [])
               = (Ok t, (__init__ early_rows, fs'))) /\
  Z.of_nat (List.length t) <= 15 /\
  NoDup (map rd_route t) /\
  Forall (fun row =>
            let g := filter (same_route (rd_route row)) d in
            g <> [] /\
            rd_mean row = mean (map dep_delay g) /\
            rd_count row
            = List.length (filter (fun r => has_value (dep_delay r)) g))
         t /\
  (forall i j a b,
      nth_error t i = Some a -> nth_error t j = Some b -> (i < j)%nat ->
      mean_ge a b) /\
  (forall a b, In a t -> In b (route_groups d) -> ~ In b t -> mean_ge a b).
Proof.
  apply (route_analysis_report early_rows [] 15). lia.
Defined.

(** The claim C4 as written fails in three places.  The count of a row is
    the number of present departure delays, not of records: the one record
    of [missing_rows] gives a row with count 0.  A negative [top_n] drops
    rows from the end: with -1, two of the three routes of [early_rows] are
    returned.  And a route that is not returned can have a missing mean,
    which no returned mean is compared with. *)
Lemma route_analysis_count_and_top_n :
  (route_delays (load_data missing_rows) 15
   = [{| rd_route := ("JFK", "LAX"); rd_mean := None; rd_count := 0 |}] /\
   List.length (filter (same_route ("JFK", "LAX")) (load_data missing_rows))
   = 1%nat) /\
  List.length (route_delays (load_data early_rows) (-1)) = 2%nat /\
  (route_delays (load_data early_rows) 2
   = [{| rd_route := ("JFK", "LAX"); rd_mean := Some 20%Q; rd_count := 1 |};
      {| rd_route := ("EWR", "LAX"); rd_mean := Some (-3)%Q; rd_count := 1 |}] /\
   In {| rd_route := ("EWR", "SFO"); rd_mean := None; rd_count := 0 |}
      (route_groups (load_data early_rows))).
Proof.
  repeat split. right. left. reflexivity.
Qed.

(** ** The reports are read-only and repeatable *)

Ltac run_report :=
  unfold run_call, plot_delay_distribution, plot_carrier_performance,
    plot_hourly_delays, plot_route_analysis, plot_monthly_trends;
  cbv [bindM self_df self_colors lift getitem savefig ret fst snd output_file];
  repeat match goal with
         | |- context [nth_error ?l ?i] => destruct (nth_error l i)
         end.

(** A report never changes the analyzer object, whether it returns or
    raises. *)
Lemma run_call_analyzer (c : Call) (w : World) :
  fst (snd (run_call c w)) = fst w.
Proof. destruct w as [a fs]. destruct c; run_report; reflexivity. Qed.

Lemma run_calls_analyzer (calls : list Call) (w : World) :
  fst (snd (run_calls calls w)) = fst w.
Proof.
  revert w. induction calls as [|c calls IH]; intros w; [reflexivity|].
  simpl. unfold bindM at 1.
  pose proof (run_call_analyzer c w) as Hc.
  destruct (run_call c w) as [[o|e] w1]; simpl in Hc; [|exact Hc].
  unfold bindM at 1. specialize (IH w1).
  destruct (run_calls calls w1) as [[os|e] w2]; simpl in *; congruence.
Qed.

(** What a report returns and draws does not depend on the files. *)
Lemma observe_frame (c : Call) (a : FlightAnalyzer) (fs1 fs2 : FileSystem) :
  observe c (a, fs1) = observe c (a, fs2).
Proof.
  unfold observe. destruct c; run_report;
    rewrite ?read_write_file; reflexivity.
Qed.

Lemma run_calls_outputs (calls : list Call) (w : World) (outs : list Output) :
  fst (run_calls calls w) = Ok outs ->
  Forall2 (fun c o => exists fig, observe c w = Ok (o, fig)) calls outs.
Proof.
  revert w outs. induction calls as [|c calls IH]; intros w outs.
  - simpl. intros [= <-]. constructor.
  - simpl. unfold bindM at 1.
    pose proof (run_call_analyzer c w) as Hc.
    destruct (run_call c w) as [[o|e] w1] eqn:Ec; simpl in Hc;
      [|discriminate].
    unfold bindM at 1. specialize (IH w1).
    destruct (run_calls calls w1) as [[os|e] w2]; simpl; [|discriminate].
    intros [= <-]. constructor.
    + unfold observe. rewrite Ec. eexists. reflexivity.
    + eapply Forall2_impl; [|apply IH; reflexivity].
      intros c' o' [fig Hfig]. exists fig. rewrite <- Hfig.
      destruct w as [a fs], w1 as [a1 fs1]. simpl in Hc. subst a1.
      apply observe_frame.
Qed.

(** C8: whatever sequence of report calls is made on an analyzer, the
    analyzer, hence the record set, is afterwards what it was; every report
    then returns and draws exactly what it does before the sequence; and
    the value every call of a completed sequence returned is the one the
    same call returns when made first. *)
Theorem reports_read_only_and_repeatable
  (a : FlightAnalyzer) (fs : FileSystem) (calls : list Call) :
  let after := run_calls calls (a, fs) in
  fst (snd after) = a /\
  df (fst (snd after)) = df a /\
  (forall c, observe c (snd after) = observe c (a, fs)) /\
  (forall outs,
      fst after = Ok outs ->
      Forall2 (fun c o => exists fig, observe c (a, fs) = Ok (o, fig))
              calls outs).
Proof.
  intros after.
  assert (Ha : fst (snd after) = a) by apply run_calls_analyzer.
  split; [exact Ha|]. split; [rewrite Ha; reflexivity|]. split.
  - intros c. destruct (snd after) as [a' fs']. simpl in Ha. subst a'.
    apply observe_frame.
  - intros outs. apply run_calls_outputs.
Qed.

(** The five reports run twice over on the records of the scenario: the
    second round returns what the first one does. *)
Example reports_twice_on_scenario :
  let calls := [CallDelayDistribution None; CallCarrierPerformance;
                CallHourlyDelays; CallRouteAnalysis 15; CallMonthlyTrends] in
  match fst (run_calls (calls ++ calls) (__init__ scenario_rows, [])) with
  | Ok outs => firstn 5 outs = skipn 5 outs /\ List.length outs = 10%nat
  | Raise _ => False
  end.
Proof. vm_compute. split; reflexivity. Qed.

(** * Further properties of the reports *)

(** ** Hourly delays *)

(** X1: the hourly table of [plot_hourly_delays] has one row per hour label
    that occurs in the record set and none for the other hours; the labels
    are in strictly ascending order of the strings; each row carries the
    mean of the present departure delays of the records of its hour. *)
Theorem hourly_delays_rows (rows : list Csv.Row) :
  let d := load_data rows in
  let t := hourly_delays d in
  StronglySorted key_lt (map fst t) /\
  (forall h, In h (map fst t) <-> exists r, In r d /\ hour_formatted r = h) /\
  Forall (fun row =>
            let g := filter (fun r => String.eqb (hour_formatted r) (fst row)) d in
            g <> [] /\ snd row = mean (map dep_delay g))
         t.
Proof.
  intros d t.
  assert (Hkeys : map fst t = sorted_keys (map hour_formatted d)).
  { subst t. unfold hourly_delays. rewrite map_map. simpl.
    apply groupby_keys. }
  split; [|split].
  - rewrite Hkeys. apply sorted_keys_sorted.
  - intros h. rewrite Hkeys. split.
    + intros Hh. apply (proj1 (sorted_keys_In _ _)) in Hh.
      apply in_map_iff in Hh. destruct Hh as (r & Hr & Hin).
      exists r. split; assumption.
    + intros (r & Hin & Hr). apply (proj2 (sorted_keys_In _ _)).
      apply in_map_iff. exists r. split; assumption.
  - apply Forall_forall. intros row Hrow. subst t. unfold hourly_delays in Hrow.
    apply in_map_iff in Hrow. destruct Hrow as (g & <- & Hg).
    apply groupby_In in Hg. destruct Hg as [(r & Hr & Hk) Hsnd].
    cbv zeta. cbn [fst snd]. rewrite <- get_group_string, <- Hsnd.
    split; [|reflexivity].
    intros Hnil. assert (Hin : In r (snd g)).
    { rewrite Hsnd. apply get_group_In. split; assumption. }
    rewrite Hnil in Hin. exact Hin.
Qed.

Lemma labels_ordered_100 : labels_ordered_upto 100 = true.
Proof. vm_compute. reflexivity. Qed.

Lemma in_hours (n : nat) (h : Z) :
  0 <= h < Z.of_nat n -> In h (map Z.of_nat (seq 0 n)).
Proof.
  intros Hh. apply in_map_iff. exists (Z.to_nat h).
  split; [lia|]. apply in_seq. lia.
Qed.

(** X2: for hours from 0 to 99, hence for the hours of a day, the labels
    "HH:00" compare as the hours do; the hourly table is then in ascending
    order of the hours and distinct hours have distinct labels. *)
Theorem hour_labels_compare_as_hours (c1 c2 : Csv.Row) :
  0 <= Csv.hour c1 < 100 -> 0 <= Csv.hour c2 < 100 ->
  key_compare (hour_formatted (derive c1)) (hour_formatted (derive c2))
  = (Csv.hour c1 ?= Csv.hour c2).
Proof.
  intros H1 H2. simpl.
  pose proof labels_ordered_100 as Hall. unfold labels_ordered_upto in Hall.
  rewrite forallb_forall in Hall.
  specialize (Hall (Csv.hour c1) (in_hours 100 _ H1)).
  rewrite forallb_forall in Hall.
  specialize (Hall (Csv.hour c2) (in_hours 100 _ H2)).
  destruct (key_compare (format_02d (Csv.hour c1) ++ ":00")
                        (format_02d (Csv.hour c2) ++ ":00"));
    destruct (Csv.hour c1 ?= Csv.hour c2); congruence.
Qed.

(** The theorem at the hours 7 and 19. *)
Lemma hour_labels_7_19 :
  key_compare
    (hour_formatted (derive (flight "A" "JFK" "LAX" 7 None None January)))
    (hour_formatted (derive (flight "A" "JFK" "LAX" 19 None None January)))
  = (7 ?= 19).
Proof.
  apply (hour_labels_compare_as_hours
           (flight "A" "JFK" "LAX" 7 None None January)
           (flight "A" "JFK" "LAX" 19 None None January)); simpl; lia.
Defined.

(** Beyond two digits the labels no longer follow the hours. *)
Example hour_label_100 :
  key_compare (format_02d 100 ++ ":00") (format_02d 23 ++ ":00") = Lt.
Proof. reflexivity. Qed.

(** ** Counting the rows of disjoint groups *)

Lemma list_sum_map_add {A : Type} (f g : A -> nat) (l : list A) :
  list_sum (map (fun a => f a + g a)%nat l)
  = (list_sum (map f l) + list_sum (map g l))%nat.
Proof. induction l as [|a l IH]; simpl; [reflexivity|]. rewrite IH. lia. Qed.

Lemma list_sum_indicator {K : Type} (eqb : K -> K -> bool) (k : K)
      (ks : list K) :
  (forall a b, eqb a b = true <-> a = b) ->
  NoDup ks -> In k ks ->
  list_sum (map (fun k' => if eqb k k' then 1 else 0)%nat ks) = 1%nat.
Proof.
  intros Heq Hnd. induction Hnd as [|a ks Hna Hnd IH]; [intros []|].
  intros Hin. simpl. destruct (eqb k a) eqn:E.
  - apply Heq in E. subst a.
    assert (Hz : list_sum (map (fun k' => if eqb k k' then 1 else 0)%nat ks)
                 = 0%nat).
    { clear IH Hin Hnd. induction ks as [|b ks IHks]; [reflexivity|].
      simpl. destruct (eqb k b) eqn:Eb.
      - apply Heq in Eb. subst b. exfalso. apply Hna. left. reflexivity.
      - apply IHks. intros Hin. apply Hna. right. exact Hin. }
    rewrite Hz. reflexivity.
  - destruct Hin as [->|Hin].
    + assert (Hk : eqb k k = true) by (apply Heq; reflexivity). congruence.
    + rewrite (IH Hin). reflexivity.
Qed.

Lemma list_sum_zero {A : Type} (l : list A) :
  list_sum (map (fun _ => 0%nat) l) = 0%nat.
Proof. induction l as [|a l IH]; simpl; [reflexivity | exact IH]. Qed.

(** The groups of distinct keys that cover the keys of the rows share out
    the rows that satisfy [p]. *)
Lemma partition_sum {A K : Type} (eqb : K -> K -> bool) (key : A -> K)
      (p : A -> bool) (ks : list K) (d : list A) :
  (forall a b, eqb a b = true <-> a = b) ->
  NoDup ks ->
  (forall r, In r d -> In (key r) ks) ->
  list_sum
    (map (fun k => List.length (filter p (filter (fun r => eqb (key r) k) d)))
         ks)
  = List.length (filter p d).
Proof.
  intros Heq Hnd. induction d as [|r d IH]; intros Hcov.
  - simpl. apply list_sum_zero.
  - assert (IH' := IH (fun x Hx => Hcov x (or_intror Hx))). clear IH.
    assert (Hstep : forall k,
      List.length (filter p (filter (fun x => eqb (key x) k) (r :: d)))
      = ((if eqb (key r) k then if p r then 1 else 0 else 0)
         + List.length (filter p (filter (fun x => eqb (key x) k) d)))%nat).
    { intros k. simpl. destruct (eqb (key r) k); simpl; [|reflexivity].
      destruct (p r); reflexivity. }
    rewrite (map_ext _ _ Hstep), list_sum_map_add, IH'.
    simpl. destruct (p r); simpl.
    + rewrite (list_sum_indicator eqb (key r) ks Heq Hnd);
        [reflexivity | apply Hcov; left; reflexivity].
    + assert (Hz : map (fun k => if eqb (key r) k then 0 else 0)%nat ks
                   = map (fun _ => 0%nat) ks).
      { apply map_ext. intros k. destruct (eqb (key r) k); reflexivity. }
      rewrite Hz, list_sum_zero. reflexivity.
Qed.

Lemma filter_true {A : Type} (l : list A) : filter (fun _ => true) l = l.
Proof. induction l as [|a l IH]; simpl; [reflexivity|]. rewrite IH. reflexivity. Qed.

(** ** Route analysis: truncation, ties and counts *)

Lemma head_is_firstn {A : Type} (n : Z) (l : list A) :
  exists k, head n l = firstn k l.
Proof.
  unfold head. destruct (n <? 0); eexists; reflexivity.
Qed.

Lemma StronglySorted_firstn {A : Type} (R : A -> A -> Prop) (k : nat)
      (l : list A) :
  StronglySorted R l -> StronglySorted R (firstn k l).
Proof.
  intros Hs. rewrite <- (firstn_skipn k l) in Hs.
  apply StronglySorted_app in Hs. apply Hs.
Qed.

(** X4: for every [top_n], negative ones included, the rows of the route
    table are in non-increasing order of mean, and a row whose mean is
    missing comes after every row that has a mean.  Nothing is stated of
    the order of rows with equal means. *)
Theorem route_delays_in_sort_order (rows : list Csv.Row) (top_n : Z) :
  StronglySorted mean_ge (route_delays (load_data rows) top_n).
Proof.
  unfold route_delays.
  destruct (head_is_firstn top_n
              (sort_values_desc rd_mean
                 (map route_agg
                      (groupby (fun r => (origin r, dest r)) (load_data rows)))))
    as [k ->].
  apply StronglySorted_firstn.
  rewrite <- (map_id (sort_values_desc rd_mean _)).
  apply (StronglySorted_map_weaken (desc_order route_before rd_mean) mean_ge
                                   (fun _ => True)).
  - intros a b _ _. apply desc_order_mean_ge.
  - apply Forall_forall. intros; exact I.
  - apply sort_values_desc_sorted, route_groups_sorted.
Qed.

(** X5: the route tables of two non-negative [top_n] are nested, the
    smaller one being the first rows of the larger one, and the table has
    [top_n] rows or, when there are fewer routes, one row per route. *)
Theorem route_delays_nested (rows : list Csv.Row) (n m : Z) :
  0 <= n <= m ->
  let d := load_data rows in
  route_delays d n = firstn (Z.to_nat n) (route_delays d m) /\
  List.length (route_delays d n)
  = Nat.min (Z.to_nat n) (List.length (route_groups d)).
Proof.
  intros Hnm d. unfold route_delays.
  rewrite !head_nonneg by lia. split.
  - rewrite firstn_firstn. f_equal. lia.
  - rewrite length_firstn. f_equal.
    apply Permutation_length, sort_values_desc_perm.
Qed.

(** The theorem at [early_rows], which has three routes. *)
Lemma route_delays_nested_2_15 :
  let d := load_data early_rows in
  route_delays d 2 = firstn (Z.to_nat 2) (route_delays d 15) /\
  List.length (route_delays d 2)
  = Nat.min (Z.to_nat 2) (List.length (route_groups d)).
Proof. apply (route_delays_nested early_rows 2 15). lia. Defined.

(** ** The carrier with most delays *)

(** [idxmax_from] returns the label of an entry of the series that no entry
    before it reaches and no entry after it exceeds. *)
Lemma idxmax_from_split {K : Type} (t : list (K * option Q)) :
  forall (pre mid : list (K * option Q)) (k0 : K) (q0 : Q),
    (forall k q, In (k, Some q) pre -> (q < q0)%Q) ->
    (forall k q, In (k, Some q) mid -> (q <= q0)%Q) ->
    exists q l1 l2,
      (pre ++ (k0, Some q0) :: mid ++ t
       = l1 ++ (idxmax_from (k0, q0) t, Some q) :: l2)%list /\
      (forall k' q', In (k', Some q') l1 -> (q' < q)%Q) /\
      (forall k' q', In (k', Some q') l2 -> (q' <= q)%Q).
Proof.
  induction t as [|[k [x|]] t IH]; intros pre mid k0 q0 Hpre Hmid.
  - exists q0, pre, mid. rewrite app_nil_r. simpl. auto.
  - simpl. destruct (Qle_bool x q0) eqn:E.
    + apply Qle_bool_iff in E.
      destruct (IH pre (mid ++ [(k, Some x)])%list k0 q0 Hpre)
        as (q & l1 & l2 & Heq & H1 & H2).
      { intros k' q' Hin. apply in_app_or in Hin.
        destruct Hin as [Hin|[[= <- <-]|[]]]; [eapply Hmid, Hin | exact E]. }
      exists q, l1, l2. rewrite <- app_assoc in Heq. simpl in Heq. auto.
    + assert (Hlt : (q0 < x)%Q).
      { apply Qnot_le_lt. intros Hle. apply Qle_bool_iff in Hle. congruence. }
      destruct (IH (pre ++ (k0, Some q0) :: mid)%list [] k x)
        as (q & l1 & l2 & Heq & H1 & H2).
      { intros k' q' Hin. apply in_app_or in Hin.
        destruct Hin as [Hin|[[= <- <-]|Hin]].
        - eapply Qlt_trans; [eapply Hpre, Hin | exact Hlt].
        - exact Hlt.
        - eapply Qle_lt_trans; [eapply Hmid, Hin | exact Hlt]. }
      { intros k' q' []. }
      exists q, l1, l2. rewrite <- app_assoc in Heq. simpl in Heq. auto.
  - simpl.
    destruct (IH pre (mid ++ [(k, None)])%list k0 q0 Hpre)
      as (q & l1 & l2 & Heq & H1 & H2).
    { intros k' q' Hin. apply in_app_or in Hin.
      destruct Hin as [Hin|[Hin|[]]]; [eapply Hmid, Hin | discriminate]. }
    exists q, l1, l2. rewrite <- app_assoc in Heq. simpl in Heq. auto.
Qed.

Lemma idxmax_split {K : Type} (l : list (K * option Q)) (k : K) :
  idxmax l = Ok k ->
  exists q l1 l2,
    (l = l1 ++ (k, Some q) :: l2)%list /\
    (forall k' q', In (k', Some q') l1 -> (q' < q)%Q) /\
    (forall k' q', In (k', Some q') l2 -> (q' <= q)%Q).
Proof.
  assert (Hgen : forall pre, (forall k' q', ~ In (k', Some q') pre) ->
            idxmax l = Ok k ->
            exists q l1 l2,
              (pre ++ l = l1 ++ (k, Some q) :: l2)%list /\
              (forall k' q', In (k', Some q') l1 -> (q' < q)%Q) /\
              (forall k' q', In (k', Some q') l2 -> (q' <= q)%Q)).
  { induction l as [|[k0 [q0|]] l IH]; intros pre Hpre; simpl.
    - discriminate.
    - intros [= <-].
      destruct (idxmax_from_split l pre [] k0 q0)
        as (q & l1 & l2 & Heq & H1 & H2).
      + intros k' q' Hin. destruct (Hpre _ _ Hin).
      + intros k' q' [].
      + exists q, l1, l2. auto.
    - intros Hk.
      destruct (IH (pre ++ [(k0, None)])%list) as (q & l1 & l2 & Heq & H12);
        [|exact Hk|].
      + intros k' q' Hin. apply in_app_or in Hin.
        destruct Hin as [Hin|[Hin|[]]]; [exact (Hpre _ _ Hin) | discriminate].
      + exists q, l1, l2. rewrite <- app_assoc in Heq. auto. }
  intros Hk. exact (Hgen [] (fun _ _ H => H) Hk).
Qed.

Lemma delay_rates_keys (d : DataFrame) :
  map fst (delay_rates d) = sorted_keys (map name d).
Proof.
  unfold delay_rates. rewrite map_map. simpl. apply groupby_keys.
Qed.

Lemma delay_rates_In (d : DataFrame) (r : FlightRecord) :
  In r d ->
  In (name r,
      mean_bool (map is_delayed
                     (filter (fun x => String.eqb (name x) (name r)) d)))
     (delay_rates d).
Proof.
  intros Hr. unfold delay_rates. apply in_map_iff.
  exists (name r, get_group name d (name r)). cbn [fst snd].
  rewrite get_group_string. split; [reflexivity|].
  apply groupby_In. cbn [fst snd]. split.
  - exists r. split; [exact Hr | reflexivity].
  - symmetry. apply get_group_string.
Qed.

Lemma delay_rates_functional (d : DataFrame) (c : string) (x : option Q) :
  In (c, x) (delay_rates d) ->
  x = mean_bool (map is_delayed (filter (fun r => String.eqb (name r) c) d)) /\
  exists r, In r d /\ name r = c.
Proof.
  unfold delay_rates. intros Hin. apply in_map_iff in Hin.
  destruct Hin as (g & [= <- <-] & Hg). apply groupby_In in Hg.
  destruct Hg as [Hex Hsnd]. rewrite Hsnd, get_group_string.
  split; [reflexivity | exact Hex].
Qed.

(** X7: in the summary of a non-empty record set, the carrier with most
    delays is a carrier of the record set whose delay rate no carrier
    exceeds, and among the carriers with that rate it is the first in
    ascending order of name. *)
Theorem carrier_with_most_delays_is_greatest
  (rows : list Csv.Row) (fs : FileSystem) :
  rows <> [] ->
  let d := load_data rows in
  let rate := fun c =>
    mean_bool (map is_delayed (filter (fun r => String.eqb (name r) c) d)) in
  exists s q,
    generate_summary_statistics (__init__ rows, fs)
    = (Ok s, (__init__ rows, fs)) /\
    (exists r, In r d /\ name r = carrier_with_most_delays s) /\
    rate (carrier_with_most_delays s) = Some q /\
    forall r, In r d ->
      exists q', rate (name r) = Some q' /\ (q' <= q)%Q /\
                 ((q' == q)%Q -> name r <> carrier_with_most_delays s ->
                  key_lt (carrier_with_most_delays s) (name r)).
Proof.
  intros Hne d rate.
  destruct (summary_of_nonempty rows fs Hne) as (o & de & c & _ & _ & Hc & Hs).
  fold d in Hc, Hs.
  destruct (idxmax_split _ _ Hc) as (q & l1 & l2 & Heq & H1 & H2).
  assert (Hcin : In (c, Some q) (delay_rates d)).
  { rewrite Heq. apply in_or_app. right. left. reflexivity. }
  destruct (delay_rates_functional d c (Some q) Hcin) as [Hq Hex].
  assert (Hsorted : StronglySorted key_lt (map fst l1 ++ c :: map fst l2)).
  { pose proof (sorted_keys_sorted (map name d)) as Hs'.
    rewrite <- delay_rates_keys, Heq, map_app in Hs'. exact Hs'. }
  apply StronglySorted_app in Hsorted. destruct Hsorted as (_ & Hs2 & _).
  apply StronglySorted_inv in Hs2. destruct Hs2 as [_ Hafter].
  rewrite Forall_forall in Hafter.
  eexists. exists q. split; [exact Hs|]. cbn [carrier_with_most_delays].
  split; [exact Hex|]. split; [symmetry; exact Hq|].
  intros r Hr. pose proof (delay_rates_In d r Hr) as Hrin. fold (rate (name r)) in Hrin.
  destruct (mean_bool_Some (map is_delayed
              (filter (fun x => String.eqb (name x) (name r)) d))) as [q' Hq'].
  { intros Hnil. apply map_eq_nil in Hnil.
    assert (Hin : In r (filter (fun x => String.eqb (name x) (name r)) d)).
    { apply filter_In. split; [exact Hr | apply String.eqb_refl]. }
    rewrite Hnil in Hin. exact Hin. }
  fold (rate (name r)) in Hq'. exists q'. split; [exact Hq'|].
  rewrite Hq' in Hrin. rewrite Heq in Hrin. apply in_app_or in Hrin.
  destruct Hrin as [Hin1|[Hc'|Hin2]].
  - pose proof (H1 _ _ Hin1) as Hlt. split; [apply Qlt_le_weak, Hlt|].
    intros Hqq. rewrite Hqq in Hlt. destruct (Qlt_irrefl _ Hlt).
  - injection Hc' as Hname Hqq. split; [rewrite Hqq; apply Qle_refl|].
    intros _ Hneq. congruence.
  - split; [exact (H2 _ _ Hin2)|]. intros _ _.
    apply Hafter. apply in_map_iff. exists (name r, Some q').
    split; [reflexivity | exact Hin2].
Qed.

(** The theorem at the scenario of three records. *)
Lemma carrier_with_most_delays_of_scenario :
  let d := load_data scenario_rows in
  let rate := fun c =>
    mean_bool (map is_delayed (filter (fun r => String.eqb (name r) c) d)) in
  exists s q,
    generate_summary_statistics (__init__ scenario_rows, [])
    = (Ok s, (__init__ scenario_rows, [])) /\
    (exists r, In r d /\ name r = carrier_with_most_delays s) /\
    rate (carrier_with_most_delays s) = Some q /\
    forall r, In r d ->
      exists q', rate (name r) = Some q' /\ (q' <= q)%Q /\
                 ((q' == q)%Q -> name r <> carrier_with_most_delays s ->
                  key_lt (carrier_with_most_delays s) (name r)).
Proof.
  apply (carrier_with_most_delays_is_greatest scenario_rows []). discriminate.
Defined.

(** ** Means and rates *)





Lemma delay_ratio_bounds (g : DataFrame) :
  g <> [] -> (0 <= delay_ratio g <= 1)%Q.
Proof.
  intros Hne. unfold delay_ratio.
  assert (Hpos : (0 < inject_Z (Z.of_nat (List.length g)))%Q).
  { rewrite <- (Zlt_Qlt 0). destruct g; [contradiction | simpl; lia]. }
  split.
  - apply Qle_shift_div_l; [exact Hpos|]. ring_simplify.
    rewrite <- (Zle_Qle 0). lia.
  - apply Qle_shift_div_r; [exact Hpos|]. ring_simplify.
    rewrite <- Zle_Qle. apply inj_le, filter_length_le.
Qed.

(** X9: every delay rate of the carrier table lies between 0 and 1, and the
    percentage of delayed flights of the summary of a non-empty record set
    between 0 and 100. *)
Theorem delay_rates_are_fractions (rows : list Csv.Row) (fs : FileSystem) :
  let d := load_data rows in
  Forall (fun row => exists q, cs_is_delayed row = Some q /\ (0 <= q <= 1)%Q)
         (carrier_stats d) /\
  (rows <> [] ->
   exists s p,
     generate_summary_statistics (__init__ rows, fs)
     = (Ok s, (__init__ rows, fs)) /\
     percentage_delayed_flights s = Some p /\ (0 <= p <= 100)%Q).
Proof.
  intros d. split.
  - apply Forall_forall. intros row Hrow.
    apply (Permutation_in _ (sort_values_desc_perm _ _)) in Hrow.
    destruct (carrier_groups_In d row Hrow) as (Hne & Hrate & _).
    destruct (mean_bool_ratio _ Hne) as (q & Hq & Hr).
    exists q. split; [congruence|]. rewrite Hr. apply delay_ratio_bounds, Hne.
  - intros Hne.
    destruct (summary_of_nonempty rows fs Hne) as (o & de & c & _ & _ & _ & Hs).
    destruct (mean_bool_ratio d (load_data_nonempty rows Hne)) as (q & Hq & Hr).
    eexists. exists (q * 100)%Q. split; [exact Hs|]. simpl. fold d.
    rewrite Hq. split; [reflexivity|].
    destruct (delay_ratio_bounds d (load_data_nonempty rows Hne)) as [H0 H1].
    rewrite Hr. split.
    + apply Qmult_le_0_compat; [exact H0 | discriminate].
    + setoid_replace 100%Q with (1 * 100)%Q at 2 by ring.
      apply Qmult_le_compat_r; [exact H1 | discriminate].
Qed.

(** ** The delay distribution *)

Lemma Qmin'_le (a b : Q) : (Qmin' a b <= a)%Q /\ (Qmin' a b <= b)%Q.
Proof.
  unfold Qmin'. destruct (Qle_bool a b) eqn:E.
  - apply Qle_bool_iff in E. split; [apply Qle_refl | exact E].
  - split; [|apply Qle_refl].
    destruct (Qlt_le_dec b a) as [H|H]; [apply Qlt_le_weak, H|].
    apply Qle_bool_iff in H. congruence.
Qed.

Lemma Qmax'_ge (a b : Q) : (a <= Qmax' a b)%Q /\ (b <= Qmax' a b)%Q.
Proof.
  unfold Qmax'. destruct (Qle_bool a b) eqn:E.
  - apply Qle_bool_iff in E. split; [exact E | apply Qle_refl].
  - split; [apply Qle_refl|].
    destruct (Qlt_le_dec b a) as [H|H]; [apply Qlt_le_weak, H|].
    apply Qle_bool_iff in H. congruence.
Qed.

Lemma fold_Qmin'_le (x : Q) (t : list Q) (y : Q) :
  In y (x :: t) -> (fold_right Qmin' x t <= y)%Q.
Proof.
  induction t as [|a t IH]; simpl.
  - intros [<-|[]]. apply Qle_refl.
  - intros [Hx|[<-|Hy]].
    + eapply Qle_trans; [apply Qmin'_le|]. apply IH. left. exact Hx.
    + apply Qmin'_le.
    + eapply Qle_trans; [apply Qmin'_le|]. apply IH. right. exact Hy.
Qed.

Lemma fold_Qmax'_ge (x : Q) (t : list Q) (y : Q) :
  In y (x :: t) -> (y <= fold_right Qmax' x t)%Q.
Proof.
  induction t as [|a t IH]; simpl.
  - intros [<-|[]]. apply Qle_refl.
  - intros [Hx|[<-|Hy]].
    + eapply Qle_trans; [|apply Qmax'_ge]. apply IH. left. exact Hx.
    + apply Qmax'_ge.
    + eapply Qle_trans; [|apply Qmax'_ge]. apply IH. right. exact Hy.
Qed.

(** The range of the bins is not empty and holds every observation. *)
Lemma outer_edges_spec (xs : list Q) :
  (fst (outer_edges xs) < snd (outer_edges xs))%Q /\
  forall x, In x xs ->
            (fst (outer_edges xs) <= x <= snd (outer_edges xs))%Q.
Proof.
  unfold outer_edges. destruct xs as [|x0 t].
  - simpl. split; [reflexivity | intros x []].
  - set (lo := fold_right Qmin' x0 t). set (hi := fold_right Qmax' x0 t).
    assert (Hin : forall x, In x (x0 :: t) -> (lo <= x <= hi)%Q).
    { intros x Hx. split; [apply fold_Qmin'_le | apply fold_Qmax'_ge]; exact Hx. }
    assert (Hle : (lo <= hi)%Q).
    { destruct (Hin x0 (or_introl eq_refl)) as [H1 H2].
      eapply Qle_trans; eassumption. }
    cbv zeta. destruct (Qeq_bool lo hi) eqn:E; cbn [fst snd].
    + split.
      * apply Qle_lt_trans with hi.
        -- apply Qle_trans with lo; [|exact Hle].
           rewrite <- (Qplus_0_r lo) at 2. unfold Qminus.
           apply Qplus_le_compat; [apply Qle_refl | discriminate].
        -- rewrite <- (Qplus_0_r hi) at 1.
           apply Qplus_lt_r. reflexivity.
      * intros x Hx. destruct (Hin x Hx) as [H1 H2]. split.
        -- eapply Qle_trans; [|exact H1].
           rewrite <- (Qplus_0_r lo) at 2. unfold Qminus.
           apply Qplus_le_compat; [apply Qle_refl | discriminate].
        -- eapply Qle_trans; [exact H2|].
           rewrite <- (Qplus_0_r hi) at 1.
           apply Qplus_le_compat; [apply Qle_refl | discriminate].
    + split; [|exact Hin].
      apply Qle_lteq in Hle. destruct Hle as [Hlt|Heq]; [exact Hlt|].
      apply Qeq_bool_iff in Heq. congruence.
Qed.

(** Every observation of the range has a bin. *)
Lemma bin_index_range (lo hi : Q) (bins : nat) (x : Q) :
  (lo < hi)%Q -> (lo <= x <= hi)%Q -> (0 < bins)%nat ->
  0 <= bin_index lo hi bins x < Z.of_nat bins.
Proof.
  intros Hlt [Hlo Hhi] Hbins. unfold bin_index.
  set (v := ((x - lo) / (hi - lo) * inject_Z (Z.of_nat bins))%Q).
  assert (Hw : (0 < hi - lo)%Q) by lra.
  assert (Hb : (0 <= inject_Z (Z.of_nat bins))%Q).
  { rewrite <- (Zle_Qle 0). lia. }
  assert (Hfrac : (0 <= (x - lo) / (hi - lo) <= 1)%Q).
  { split.
    - apply Qle_shift_div_l; [exact Hw | lra].
    - apply Qle_shift_div_r; [exact Hw | lra]. }
  assert (Hv : (0 <= v <= inject_Z (Z.of_nat bins))%Q).
  { subst v. split.
    - apply Qmult_le_0_compat; [apply Hfrac | exact Hb].
    - setoid_replace (inject_Z (Z.of_nat bins))
        with (1 * inject_Z (Z.of_nat bins))%Q at 2 by ring.
      apply Qmult_le_compat_r; [apply Hfrac | exact Hb]. }
  assert (Hf : 0 <= Qfloor v <= Z.of_nat bins).
  { destruct Hv as [H0 H1]. split.
    - apply (Qfloor_resp_le 0 v H0).
    - rewrite <- (Qfloor_Z (Z.of_nat bins)). apply Qfloor_resp_le, H1. }
  destruct (Qfloor v =? Z.of_nat bins) eqn:E.
  - apply Z.eqb_eq in E. lia.
  - apply Z.eqb_neq in E. lia.
Qed.

(** The counts of the buckets add up to the size of the sample. *)
Lemma histogram_counts (bins : nat) (xs : list Q) :
  (0 < bins)%nat ->
  list_sum (map bar_count (histogram bins xs)) = List.length xs.
Proof.
  intros Hbins. unfold histogram.
  destruct (outer_edges_spec xs) as [Hlt Hin].
  destruct (outer_edges xs) as [lo hi]. cbn [fst snd] in Hlt, Hin.
  rewrite map_map. cbn [bar_count].
  pose proof (partition_sum Z.eqb (bin_index lo hi bins) (fun _ => true)
                (map Z.of_nat (seq 0 bins)) xs Z.eqb_eq) as Hsum.
  rewrite filter_true, map_map in Hsum. rewrite <- Hsum.
  - apply f_equal, map_ext. intros i. rewrite filter_true. reflexivity.
  - apply Finite.Injective_map_NoDup_in; [|apply seq_NoDup].
    intros a b _ _ Hab. lia.
  - intros x Hx. apply in_hours.
    apply bin_index_range; [exact Hlt | apply Hin, Hx | exact Hbins].
Qed.

Lemma nth_error_seq_Some (s n i a : nat) :
  nth_error (seq s n) i = Some a -> a = (s + i)%nat.
Proof.
  revert s i. induction n as [|n IH]; intros s [|i]; simpl; try discriminate.
  - intros [= <-]. lia.
  - intros H. apply IH in H. lia.
Qed.

Lemma histogram_contiguous (bins : nat) (xs : list Q) (i : nat) (b1 b2 : Bar) :
  nth_error (histogram bins xs) i = Some b1 ->
  nth_error (histogram bins xs) (S i) = Some b2 ->
  bar_right b1 = bar_left b2.
Proof.
  unfold histogram. destruct (outer_edges xs) as [lo hi].
  rewrite !nth_error_map. intros H1 H2.
  destruct (nth_error (seq 0 bins) i) as [a|] eqn:Ea; [|discriminate].
  destruct (nth_error (seq 0 bins) (S i)) as [b|] eqn:Eb; [|discriminate].
  injection H1 as <-. injection H2 as <-. cbn [bar_right bar_left].
  apply nth_error_seq_Some in Ea, Eb. subst a b. reflexivity.
Qed.

Lemma dropna_present {A : Type} (f : A -> option Q) (l : list A) :
  Forall (fun r => has_value (f r) = true) l ->
  List.length (dropna (map f l)) = List.length l.
Proof.
  induction 1 as [|r l Hr _ IH]; simpl; [reflexivity|].
  destruct (f r); [simpl; congruence | discriminate].
Qed.

Lemma filter_filter {A : Type} (p q : A -> bool) (l : list A) :
  filter q (filter p l) = filter (fun x => p x && q x) l.
Proof.
  induction l as [|a l IH]; simpl; [reflexivity|].
  destruct (p a); simpl; [destruct (q a); simpl; congruence | exact IH].
Qed.

(** X10: for every carrier filter, absent or not, [plot_delay_distribution]
    saves a histogram of 50 buckets, each beginning where the one before
    ends, whose counts add up to the number of records of the carrier (of
    all carriers when none is given) with a strictly positive departure
    delay: every such record is counted in exactly one bucket. *)
Theorem delay_distribution_counts_every_positive_delay
  (rows : list Csv.Row) (fs : FileSystem) (carrier : option string) :
  exists bars fs',
    plot_delay_distribution carrier (__init__ rows, fs)
    = (Ok tt, (__init__ rows, fs')) /\
    read_file fs' "delay_distribution.png" = Some (HistPlot bars) /\
    List.length bars = 50%nat /\
    list_sum (map bar_count bars)
    = List.length (filter (in_distribution carrier) (load_data rows)) /\
    (forall i b1 b2,
        nth_error bars i = Some b1 -> nth_error bars (S i) = Some b2 ->
        bar_right b1 = bar_left b2).
Proof.
  set (d := load_data rows).
  set (data := match carrier with
               | None => d
               | Some c => filter (fun r => String.eqb (name r) c) d
               end).
  set (positive := filter (fun r => series_gt (dep_delay r) 0) data).
  assert (Hpos : positive = filter (in_distribution carrier) d).
  { subst positive data. unfold in_distribution. destruct carrier as [c|].
    - apply filter_filter.
    - reflexivity. }
  exists (histogram 50 (dropna (map dep_delay positive))).
  eexists. split; [|split; [|split; [|split]]].
  - unfold plot_delay_distribution. run_method. reflexivity.
  - apply read_write_file.
  - apply histogram_length.
  - rewrite histogram_counts by lia. rewrite <- Hpos.
    apply dropna_present. apply Forall_forall. intros r Hr.
    subst positive. apply filter_In in Hr. destruct Hr as [_ Hgt].
    apply series_gt_spec in Hgt. destruct Hgt as (x & -> & _). reflexivity.
  - apply histogram_contiguous.
Qed.

(** ** The image files *)

Lemma read_write_other (fs : FileSystem) (path other : string) (fig : Figure) :
  other <> path ->
  read_file (write_file fs path fig) other = read_file fs other.
Proof.
  intros Hne. unfold read_file, write_file. cbn [find fst].
  destruct (String.eqb_spec path other) as [E|_]; [congruence|].
  f_equal. induction fs as [|[p f] fs IH]; [reflexivity|].
  cbn [filter find fst].
  destruct (String.eqb_spec p path) as [->|Hp]; cbn [negb].
  - destruct (String.eqb_spec path other) as [E|_]; [congruence | exact IH].
  - cbn [find fst]. destruct (String.eqb p other); [reflexivity | exact IH].
Qed.

(** X11: a report writes its own image file and no other: every other file
    is afterwards what it was, whether the report returns or raises, and
    when it returns its file holds a figure. *)
Theorem report_writes_only_its_file (c : Call) (w : World) :
  (forall path, path <> output_file c ->
                read_file (snd (snd (run_call c w))) path
                = read_file (snd w) path) /\
  (forall o, fst (run_call c w) = Ok o ->
             exists fig,
               read_file (snd (snd (run_call c w))) (output_file c)
               = Some fig).
Proof.
  destruct w as [a fs]. split.
  - intros path Hne. destruct c; run_report; cbn [snd];
      try reflexivity; apply read_write_other; exact Hne.
  - intros o. destruct c; run_report; cbn [fst snd]; intros Ho;
      try discriminate Ho; eexists; apply read_write_file.
Qed.

(** ** The script *)

(** X12: run on an empty record set, the script raises while the summary is
    generated and writes no image file; run on a non-empty one, it prints
    the summary and leaves the five image files, each holding the figure of
    its report, and no other file is touched. *)
Theorem main_writes_the_five_reports (rows : list Csv.Row) (fs : FileSystem) :
  (rows = [] -> main rows fs = (Raise IndexError, (__init__ rows, fs))) /\
  (rows <> [] ->
   exists s fs',
     main rows fs = (Ok s, (__init__ rows, fs')) /\
     generate_summary_statistics (__init__ rows, fs)
     = (Ok s, (__init__ rows, fs)) /\
     Forall (fun c => exists o fig,
                 observe c (__init__ rows, fs) = Ok (o, Some fig) /\
                 read_file fs' (output_file c) = Some fig)
            report_calls /\
     (forall path, ~ In path (map output_file report_calls) ->
                   read_file fs' path = read_file fs path)).
Proof.
  split.
  - intros ->. reflexivity.
  - intros Hne.
    destruct (summary_of_nonempty rows fs Hne) as (o & de & c & _ & _ & _ & Hs).
    eexists. eexists. split; [|split; [exact Hs|split]].
    + unfold main, main_body. unfold bindM at 1. rewrite Hs.
      unfold plot_delay_distribution, plot_carrier_performance,
        plot_hourly_delays, plot_route_analysis, plot_monthly_trends.
      run_method. reflexivity.
    + unfold report_calls.
      repeat (apply Forall_cons;
              [eexists; eexists; split;
               [unfold observe, run_call, plot_delay_distribution,
                  plot_carrier_performance, plot_hourly_delays,
                  plot_route_analysis, plot_monthly_trends;
                run_method; cbn [output_file]; rewrite read_write_file;
                reflexivity
               |cbn [output_file];
                repeat (rewrite read_write_other by discriminate);
                apply read_write_file]|]).
      apply Forall_nil.
    + intros path Hpath. cbn [map report_calls output_file In] in Hpath.
      repeat (rewrite read_write_other;
              [|intros ->; apply Hpath; tauto]).
      reflexivity.
Qed.

(** ** The reports agree with one another *)

(** X13: a delayed record has a strictly positive departure delay, so every
    delayed flight of a carrier is in the sample of its delay distribution:
    the delayed records of the carrier (of all carriers when none is given)
    are at most as many as the records the histogram counts. *)
Theorem delayed_flights_are_in_the_distribution
  (rows : list Csv.Row) (carrier : option string) :
  let d := load_data rows in
  let of_carrier := fun r =>
    match carrier with
    | None => true
    | Some c => String.eqb (name r) c
    end in
  Forall (fun r => is_delayed r = true -> series_gt (dep_delay r) 0 = true) d /\
  (List.length (filter (fun r => of_carrier r && is_delayed r) d)
   <= List.length (filter (in_distribution carrier) d))%nat.
Proof.
  intros d of_carrier.
  assert (Hpos : forall r, In r d -> is_delayed r = true ->
                           series_gt (dep_delay r) 0 = true).
  { intros r Hr Hdel. apply load_data_In in Hr. destruct Hr as (c & _ & ->).
    simpl in *. apply series_gt_spec in Hdel. destruct Hdel as (x & Hx & Hlt).
    apply series_gt_spec. exists x. split; [exact Hx | lra]. }
  split; [apply Forall_forall; exact Hpos|].
  clearbody d. induction d as [|r d IH]; [reflexivity|].
  assert (IH' := IH (fun x Hx => Hpos x (or_intror Hx))).
  specialize (Hpos r (or_introl eq_refl)).
  cbn [filter]. unfold in_distribution at 1. fold (of_carrier r).
  destruct (of_carrier r); cbn [andb]; [|exact IH'].
  destruct (is_delayed r).
  - rewrite (Hpos eq_refl). simpl. lia.
  - destruct (series_gt (dep_delay r) 0); simpl; lia.
Qed.

